(* ===== verification/_CoqProject ===== *)
-Q . S2P
Prelude.v
JsString.v
Search.v
Highlight.v
Render.v
Controller.v
CodeCopy.v
