(* ===== verification/Prelude.v ===== *)
(** * A verification development of the site scripts of khjzzm.github.io

    The repository ships two browser scripts, both immediately invoked
    function expressions that keep their state in closure variables:

    - [src/assets/js/search.js]: in-page full text search.  Its parts are
      the index loader ([loadSearchIndex], which fetches [/search.json] into
      the closure variable [searchIndex]), the scorer ([performSearch]: a
      per-term additive weight 10/5/1 for title/tags/content containment,
      a filter on a positive score, a stable descending sort and a cut at
      20), the renderer ([renderResults] with [highlightText] and
      [escapeRegex]) and the controller ([init], [debounce], the [input]
      listener and the 500 ms timer seeded by the [?q=] URL parameter).
    - [src/assets/js/code-copy.js]: adds a "Copy" button to every code
      block and drives its label through "Copied!"/"Failed" and back.

    ** Files, in dependency order

    - [Prelude] (this file): the JavaScript completion type [jsres] (a
      value or a thrown exception) with its bind notation in [js_scope],
      [mapM] (an [Array.prototype.map] whose callback may throw), the
      tactics [js_case], [split_ands] and [nat_reflect], the hint database
      [js] and the generic list lemmas the components share ([ordered] for
      "occurs before", prefixes of [filter] and [firstn]).
    - [JsString]: the string built-ins the scripts call, on UTF-16 code
      units restricted to the Latin-1 range 0..255 (Rocq's [ascii]):
      [toLowerCase], [trim], [split(/\s+/)] (empty fields kept at both
      ends, as JavaScript does), [includes], [join].
    - [Search], Module [Scorer]: the data of [/search.json] ([Post] with
      every field optional, [index_value] for the value of [searchIndex])
      and [performSearch] (lines 17-51): [add_term] is the body of
      [terms.forEach], [score_post] the [map] callback, [insert_desc] and
      [sort_by_score] the stable [Array.prototype.sort] with the comparator
      [b.score - a.score], [positive] the filter and [max_results] the cut.
    - [Highlight], Module [Highlighter]: [escapeRegex] (lines 92-94), the
      regular-expression source it builds, and [highlightText] (lines
      81-90) as a sequential, global, case-insensitive literal replacement
      [replace_ci], defined with Equations by well-founded recursion on the
      length of the text.
    - [Render], Module [Renderer]: [renderResults] (lines 53-79) building
      the [innerHTML] string from the template text, code unit for code unit.
    - [Controller], Module [Controller]: [loadSearchIndex], [init],
      [debounce] and the [?q=] timer (lines 8-15, 96-130) as a state
      machine.  The page state [Page] holds the two elements, [searchIndex],
      the pending timers and the debounce closure's [timeout] variable;
      events are input, a timer firing (the earliest) and the fetch
      settling.  The controller is written against the typeclass
      [SearchEngine] (index, [performSearch], [renderResults]); its
      invariants are proved for every engine, and the instance
      [site_engine] plugs in [Scorer] and [Renderer] for the concrete runs.
    - [CodeCopy], Module [CodeCopy]: [src/assets/js/code-copy.js].  The
      code blocks are a list updated by index (stdpp's [!!] and
      [<[_:=_]>]); [addCopyButtons] adds the buttons, and clicks, the
      settlement of a pending [writeText] promise (in any order) and the
      2000-unit reset timers are the events of a state machine.

    ** What is proved

    - Scorer: the refinement of [performSearch] to the abstract
      specification (the unique stable descending order of the
      positive-scored posts, cut at 20); sortedness, positivity, the cap
      and stability of every result; the short-query guard; the exact
      error condition (a [TypeError] for a non-array index or a post
      without [title] or [content]); additivity and the 16-point bound of
      the score; what an untrimmed query with leading white space returns.
    - Highlighter: [escapeRegex] round trip (the pattern matches the term
      literally); [highlightText] round trip (removing the [<mark>] tags
      gives the text back, for texts and terms without markup); the
      replacement is sequential term by term, so later terms run over the
      tags inserted for earlier ones.
    - Renderer: rendering a successful search never throws; a title that
      holds no query term reaches [innerHTML] verbatim, markup included.
    - Controller: by induction on [reachable], at most one debounced
      search is pending and it is the one the next input cancels; the
      listener is installed exactly when both elements exist, the index is
      fetched once if so, and a page missing an element stays inert;
      every pending timer runs; a burst of inputs yields one search with
      the last, trimmed value; typing never cancels the URL-parameter
      search, whose results do not depend on the input; loading the index
      never runs a search.  The [SearchEngine] interface carries one law,
      [render_element] (rendering writes into the element it is given),
      which [site_engine] discharges with a lemma of [Render].
    - CodeCopy: [addCopyButtons] is idempotent and gives every block a
      button; by induction on [reachable], a button not reading "Copy"
      (or with class [copied]) has a reset pending, so all labels come back
      to "Copy" once the timers drain, which they always do; the effect
      of a click and its settlement on both branches; reset timers are
      never cancelled, so an earlier copy's timer cuts a later "Copied!"
      short.

    ** Bounds, fuel and what is not modelled

    No definition uses fuel: the loops are structural over lists, and
    [replace_ci] and [unmark] are well-founded on the length of the text.
    Times are [nat] (time units of [setTimeout]); the score is a [nat],
    bounded by 16 per term, far below the 2^53 of a JavaScript number.
    Strings are restricted to Latin-1 code units, so [toLowerCase] is the
    Latin-1 mapping; characters outside that range are not modelled.  The
    JSON parser, the network and the DOM beyond the elements the scripts
    read are abstracted: a fetch outcome is a value of [fetch_outcome], an
    element is an [option].  A post's fields are strings or absent: a
    field present with another JSON type (a [null] title, [tags] that is
    not an array) is outside the model, although the code also throws on
    it.  [navigator.clipboard] is assumed to exist, so the synchronous
    [TypeError] of [code-copy.js] line 23 without it is not modelled.
    Timers fire exactly when due, and no event happens while one is
    overdue.  The [DOMContentLoaded] bootstrap of both
    scripts only decides when [init] and [addCopyButtons] run and is not
    modelled.  Left for later: parsing the rendered [innerHTML] back to the
    title and url (the specification's rendering round trip, which the
    unescaped interpolation breaks in general), and the interleaving of
    the two scripts on one page (they share no state). *)

From Stdlib Require Import List Bool Arith Lia Sorted.
Import ListNotations.

(** ** JavaScript completions *)

(** The exceptions the scripts meet: [TypeError] (reading a property of
    [undefined], calling a missing method, a [fetch] rejected by a network
    failure) and [SyntaxError] (a response body that is not JSON). *)
Inductive js_exn : Type :=
| TypeError
| SyntaxError.

(** A completion: the value returned, or the exception thrown. *)
Inductive jsres (A : Type) : Type :=
| Ok (a : A)
| Throw (e : js_exn).
Arguments Ok {A} a.
Arguments Throw {A} e.

Declare Scope js_scope.
Delimit Scope js_scope with js.

Definition js_bind {A B : Type} (c : jsres A) (k : A -> jsres B) : jsres B :=
  match c with
  | Ok a => k a
  | Throw e => Throw e
  end.

Notation "x <- c ;; k" := (js_bind c (fun x => k))
  (at level 100, c at next level, right associativity) : js_scope.

Open Scope js_scope.

(** [xs.map(f)] for a callback [f] that may throw: the first exception,
    in index order, escapes and no array is produced. *)
Fixpoint mapM {A B : Type} (f : A -> jsres B) (l : list A) : jsres (list B) :=
  match l with
  | [] => Ok []
  | x :: l' => y <- f x ;; ys <- mapM f l' ;; Ok (y :: ys)
  end.

(** ** Tactics and hints *)

Create HintDb js.
Create Rewrite HintDb js_rw.

(** Case on every [if] and [match] on a boolean test or completion in the
    goal, remembering the equation. *)
Ltac js_case :=
  repeat match goal with
  | |- context [if ?b then _ else _] =>
      lazymatch b with
      | context [if _ then _ else _] => fail
      | _ => destruct b eqn:?
      end
  | |- context [match ?c with Ok _ => _ | Throw _ => _ end] =>
      destruct c eqn:?
  end.

(** Split a goal into its conjuncts, and nothing else ([split] would
    also try [eq_refl] on an equation). *)
Ltac split_ands := repeat match goal with |- _ /\ _ => split end.

(** Turn boolean comparisons on [nat] in the hypotheses into [Prop]. *)
Ltac nat_reflect :=
  repeat match goal with
  | H : (_ <=? _) = true |- _ => apply Nat.leb_le in H
  | H : (_ <=? _) = false |- _ => apply Nat.leb_gt in H
  | H : (_ <? _) = true |- _ => apply Nat.ltb_lt in H
  | H : (_ <? _) = false |- _ => apply Nat.ltb_ge in H
  | H : (_ =? _) = true |- _ => apply Nat.eqb_eq in H
  | H : (_ =? _) = false |- _ => apply Nat.eqb_neq in H
  end.

(** ** Lemmas on completions *)

Lemma js_bind_ok {A B} (c : jsres A) (k : A -> jsres B) b :
  js_bind c k = Ok b <-> exists a, c = Ok a /\ k a = Ok b.
Proof.
  destruct c as [a|e]; simpl; split.
  - intros H. now exists a.
  - now intros (a' & [= ->] & H).
  - discriminate.
  - now intros (a' & H & _).
Qed.

Lemma mapM_ok_iff {A B} (f : A -> jsres B) l ys :
  mapM f l = Ok ys <-> Forall2 (fun x y => f x = Ok y) l ys.
Proof.
  revert ys; induction l as [|x l IH]; intros ys; simpl.
  - split; [intros [= <-]; constructor | intros H; now inversion H].
  - rewrite js_bind_ok. split.
    + intros (y & Hy & H). apply js_bind_ok in H as (ys' & Hys & [= <-]).
      constructor; [exact Hy | now apply IH].
    + intros H; inversion H; subst. exists y; split; [assumption|].
      apply js_bind_ok. exists l'; split; [now apply IH | reflexivity].
Qed.

(** A callback that succeeds on every element makes [map] succeed. *)
Lemma mapM_total {A B} (f : A -> jsres B) (g : A -> B) l :
  (forall x, In x l -> f x = Ok (g x)) -> mapM f l = Ok (map g l).
Proof.
  induction l as [|x l IH]; intros H; simpl; [reflexivity|].
  rewrite (H x (or_introl eq_refl)); simpl.
  rewrite IH; [reflexivity|]. intros y Hy; apply H; now right.
Qed.

#[export] Hint Resolve mapM_total : js.

(** ** Generic list lemmas *)

Lemma Forall2_in_l {A B} (R : A -> B -> Prop) l l' x :
  Forall2 R l l' -> In x l -> exists y, In y l' /\ R x y.
Proof.
  induction 1 as [|a b l l' Hab _ IH]; [contradiction|]. intros [->|Hin].
  - exists b. split; [now left | exact Hab].
  - destruct (IH Hin) as (y & Hy & Hxy). exists y. split; [now right | exact Hxy].
Qed.


Lemma length_firstn_le {A} n (l : list A) : length (firstn n l) <= n.
Proof. rewrite length_firstn; lia. Qed.

Lemma Forall_firstn {A} (P : A -> Prop) n l : Forall P l -> Forall P (firstn n l).
Proof.
  revert l; induction n as [|n IH]; intros [|x l] H; simpl; auto.
  inversion H; subst; constructor; auto.
Qed.

Lemma Forall_filter_true {A} (f : A -> bool) l : Forall (fun x => f x = true) (filter f l).
Proof. apply Forall_forall; intros x Hx; now apply filter_In in Hx. Qed.

#[export] Hint Resolve length_firstn_le Forall_firstn Forall_filter_true : js.

(** [x] occurs before [y] in [l]. *)
Definition ordered {A} (x y : A) (l : list A) : Prop :=
  exists a b c, l = a ++ x :: b ++ y :: c.

Lemma ordered_map {A B} (g : A -> B) x y l :
  ordered x y l -> ordered (g x) (g y) (map g l).
Proof.
  intros (a & b & c & ->). exists (map g a), (map g b), (map g c).
  now rewrite map_app; simpl; rewrite map_app.
Qed.

Lemma ordered_filter {A} (f : A -> bool) x y l :
  f x = true -> f y = true -> ordered x y l -> ordered x y (filter f l).
Proof.
  intros Hx Hy (a & b & c & ->). exists (filter f a), (filter f b), (filter f c).
  rewrite filter_app; simpl; rewrite Hx, filter_app; simpl; now rewrite Hy.
Qed.

Lemma ordered_filter_inv {A} (f : A -> bool) x y l :
  ordered x y (filter f l) -> ordered x y l.
Proof.
  intros (a & b & c & H). revert a H.
  induction l as [|z l IH]; intros a H; simpl in H; [now destruct a|].
  destruct (f z).
  - destruct a as [|z' a]; simpl in H; injection H as Hz H.
    + subst z. assert (Hyl : In y l).
      { eapply filter_In. rewrite H. apply in_or_app; right; now left. }
      apply in_split in Hyl as (b' & c' & ->). now exists [], b', c'.
    + destruct (IH a H) as (a' & b' & c' & ->). subst z'.
      now exists (z :: a'), b', c'.
  - destruct (IH a H) as (a' & b' & c' & ->). now exists (z :: a'), b', c'.
Qed.

Lemma ordered_app_l {A} x y (l r : list A) : ordered x y l -> ordered x y (l ++ r).
Proof.
  intros (a & b & c & ->). exists a, b, (c ++ r).
  now rewrite <- app_assoc; simpl; rewrite <- app_assoc.
Qed.

(** The elements [filter] keeps from a prefix form a prefix. *)
Lemma filter_firstn_prefix {A} (f : A -> bool) n l :
  exists r, filter f l = filter f (firstn n l) ++ r.
Proof.
  exists (filter f (skipn n l)). rewrite <- filter_app. now rewrite firstn_skipn.
Qed.

Lemma Sorted_firstn {A} (R : A -> A -> Prop) n l : Sorted R l -> Sorted R (firstn n l).
Proof.
  revert l; induction n as [|n IH]; intros l H; [constructor|].
  destruct H as [|x l Hs Hhd]; simpl; [constructor|].
  constructor; [now apply IH|].
  destruct Hhd as [|y l' Hxy]; destruct n; simpl; constructor; assumption.
Qed.

#[export] Hint Resolve ordered_map ordered_filter ordered_app_l Sorted_firstn : js.

(** The default of [last] does not matter for a non-empty list. *)
Lemma last_default {A} (a : A) l d d' : last (a :: l) d = last (a :: l) d'.
Proof.
  revert a; induction l as [|b l IH]; intros a; [reflexivity|].
  change (last (b :: l) d = last (b :: l) d'). apply IH.
Qed.
