(* ===== verification/JsString.v ===== *)
(** * The JavaScript string built-ins used by the scripts

    A JavaScript string is a sequence of UTF-16 code units; this file
    restricts code units to the Latin-1 range 0..255, represented by
    Rocq's 8-bit [ascii].  Within that range the definitions below follow
    ECMAScript: [toLowerCase] maps A-Z and U+00C0..U+00DE (except U+00D7)
    up by 32; the white space of [trim] and of the regular-expression
    class [\s] is TAB, LF, VT, FF, CR, SPACE and NO-BREAK SPACE;
    [split(/\s+/)] cuts at every maximal run of white space and keeps the
    empty leading and trailing fields; [s.includes(t)] is substring
    containment, true for the empty [t]. *)

From Stdlib Require Import Ascii String.
From Stdlib Require Import List Bool Arith Lia.
From S2P Require Import Prelude.
Import ListNotations.

Abbreviation jsstr := (list ascii).

(** A string literal of the source, as code units. *)
Definition js (s : string) : jsstr := list_ascii_of_string s.

(** ** Case mapping *)

Definition is_upper_cu (c : ascii) : bool :=
  let n := nat_of_ascii c in
  ((65 <=? n) && (n <=? 90)) || ((192 <=? n) && (n <=? 222) && negb (n =? 215)).

Definition lower_cu (c : ascii) : ascii :=
  if is_upper_cu c then ascii_of_nat (nat_of_ascii c + 32) else c.

(** [String.prototype.toLowerCase]. *)
Definition toLowerCase (s : jsstr) : jsstr := map lower_cu s.

(** ** White space, [trim] and [split(/\s+/)] *)

Definition is_ws (c : ascii) : bool :=
  let n := nat_of_ascii c in
  ((9 <=? n) && (n <=? 13)) || (n =? 32) || (n =? 160).

Definition starts_ws (s : jsstr) : bool :=
  match s with
  | c :: _ => is_ws c
  | [] => false
  end.

Definition ends_ws (s : jsstr) : bool := starts_ws (rev s).

Fixpoint trim_start (s : jsstr) : jsstr :=
  match s with
  | c :: s' => if is_ws c then trim_start s' else s
  | [] => []
  end.

Definition trim_end (s : jsstr) : jsstr := rev (trim_start (rev s)).

(** [String.prototype.trim]. *)
Definition trim (s : jsstr) : jsstr := trim_end (trim_start s).

(** [s.split(/\s+/)], computed from the right: a white-space code unit
    followed by white space extends the run that follows it; one followed
    by anything else starts a new field. *)
Fixpoint split_ws (s : jsstr) : list jsstr :=
  match s with
  | [] => [[]]
  | c :: s' =>
      let r := split_ws s' in
      if is_ws c then (if starts_ws s' then r else [] :: r)
      else match r with
           | [] => [[c]]
           | w :: ws => (c :: w) :: ws
           end
  end.

(** ** [includes] and [join] *)

Fixpoint prefixb (t s : jsstr) : bool :=
  match t, s with
  | [], _ => true
  | a :: t', b :: s' => Ascii.eqb a b && prefixb t' s'
  | _ :: _, [] => false
  end.

(** [s.includes(t)]. *)
Fixpoint includes (s t : jsstr) : bool :=
  prefixb t s || match s with
                 | [] => false
                 | _ :: s' => includes s' t
                 end.

(** [l.join(sep)]. *)
Fixpoint join (sep : jsstr) (l : list jsstr) : jsstr :=
  match l with
  | [] => []
  | [x] => x
  | x :: l' => x ++ sep ++ join sep l'
  end.

(** ** Lemmas *)

Lemma prefixb_spec t s : prefixb t s = true <-> exists r, s = t ++ r.
Proof.
  revert s; induction t as [|a t IH]; intros [|b s]; simpl.
  - split; [now exists [] | reflexivity].
  - split; [now exists (b :: s) | reflexivity].
  - split; [discriminate | now intros (r & ?)].
  - rewrite andb_true_iff, Ascii.eqb_eq, IH. split.
    + intros [-> (r & ->)]. now exists r.
    + intros (r & [= -> ->]). split; [reflexivity | now exists r].
Qed.

Lemma includes_spec s t : includes s t = true <-> exists a b, s = a ++ t ++ b.
Proof.
  induction s as [|c s IH]; simpl; rewrite orb_true_iff, prefixb_spec.
  - split.
    + intros [(r & Hr) | H]; [now exists [], r | discriminate].
    + intros (a & b & H). left. exists b.
      destruct a; [exact H | discriminate].
  - rewrite IH. split.
    + intros [(r & Hr) | (a & b & ->)].
      * now exists [], r.
      * now exists (c :: a), b.
    + intros ([|c' a] & b & H); simpl in H.
      * left; now exists b.
      * injection H as -> ->. right. now exists a, b.
Qed.

Lemma includes_nil s : includes s [] = true.
Proof. destruct s; reflexivity. Qed.

Lemma includes_refl s : includes s s = true.
Proof. apply includes_spec. exists [], []. now rewrite app_nil_r. Qed.

#[export] Hint Resolve includes_nil includes_refl : js.

(** White space is closed under lower-casing: no upper-case letter is
    white space. *)
Lemma is_ws_lower c : is_ws (lower_cu c) = is_ws c.
Proof. destruct c as [[] [] [] [] [] [] [] []]; reflexivity. Qed.

Lemma lower_cu_idem c : lower_cu (lower_cu c) = lower_cu c.
Proof. destruct c as [[] [] [] [] [] [] [] []]; reflexivity. Qed.

Lemma toLowerCase_idem s : toLowerCase (toLowerCase s) = toLowerCase s.
Proof.
  unfold toLowerCase; rewrite map_map.
  apply map_ext, lower_cu_idem.
Qed.

Lemma starts_ws_lower s : starts_ws (toLowerCase s) = starts_ws s.
Proof. destruct s; simpl; [reflexivity | apply is_ws_lower]. Qed.

#[export] Hint Rewrite is_ws_lower lower_cu_idem toLowerCase_idem starts_ws_lower : js_rw.

(** Splitting commutes with lower-casing. *)
Lemma split_ws_lower s : split_ws (toLowerCase s) = map toLowerCase (split_ws s).
Proof.
  induction s as [|c s IH]; [reflexivity|].
  cbn [toLowerCase map split_ws]. fold (toLowerCase s).
  rewrite IH, is_ws_lower, starts_ws_lower.
  destruct (is_ws c), (starts_ws s); try reflexivity;
    destruct (split_ws s); reflexivity.
Qed.

Lemma split_ws_not_nil s : split_ws s <> [].
Proof.
  induction s as [|c s IH]; simpl; [discriminate|].
  destruct (is_ws c), (starts_ws s), (split_ws s); congruence.
Qed.

(** No field contains white space. *)
Lemma split_ws_no_ws s :
  Forall (fun w => Forall (fun c => is_ws c = false) w) (split_ws s).
Proof.
  induction s as [|c s IH]; simpl; [repeat constructor|].
  destruct (is_ws c) eqn:Hc; [destruct (starts_ws s); auto|].
  destruct (split_ws s) as [|w ws]; [repeat constructor; assumption|].
  inversion IH; subst. constructor; [constructor|]; assumption.
Qed.

Lemma split_ws_hd_nonempty s :
  starts_ws s = false -> s <> [] -> exists w ws, split_ws s = (w :: ws) /\ w <> [].
Proof.
  destruct s as [|c s]; [congruence|]. simpl. intros Hc _. rewrite Hc.
  destruct (split_ws s) as [|w ws]; [now exists [c], [] | now exists (c :: w), ws].
Qed.

Lemma ends_ws_cons c s : s <> [] -> ends_ws (c :: s) = ends_ws s.
Proof.
  intros Hs. unfold ends_ws. simpl.
  destruct (rev s) eqn:E; [apply (f_equal (@rev _)) in E; rewrite rev_involutive in E; simpl in E; congruence|].
  reflexivity.
Qed.

(** A string that does not end with white space splits into fields all
    non-empty after the first. *)
Lemma split_ws_tl_nonempty s :
  ends_ws s = false -> Forall (fun w => w <> []) (tl (split_ws s)).
Proof.
  induction s as [|c s IH]; simpl; [constructor|]. intros Hend.
  destruct s as [|c' s'].
  - unfold ends_ws in Hend; simpl in Hend |- *. rewrite Hend. constructor.
  - rewrite ends_ws_cons in Hend by discriminate. specialize (IH Hend).
    destruct (is_ws c).
    + destruct (starts_ws (c' :: s')) eqn:Hs; [exact IH|]. cbn [tl].
      destruct (split_ws_hd_nonempty (c' :: s')) as (w & ws & Hsp & Hw);
        [assumption | discriminate |].
      rewrite Hsp in *. constructor; assumption.
    + destruct (split_ws (c' :: s')); [constructor | exact IH].
Qed.

(** The fields of a non-empty string without leading or trailing white
    space, such as a trimmed query, are all non-empty. *)
Lemma split_ws_trimmed_nonempty s :
  starts_ws s = false -> ends_ws s = false -> s <> [] ->
  Forall (fun w => w <> []) (split_ws s).
Proof.
  intros Hs He Hn.
  destruct (split_ws_hd_nonempty s Hs Hn) as (w & ws & Hsp & Hw).
  pose proof (split_ws_tl_nonempty s He) as Ht. rewrite Hsp in *.
  constructor; assumption.
Qed.

Lemma trim_start_not_ws s : starts_ws (trim_start s) = false.
Proof.
  induction s as [|c s IH]; simpl; [reflexivity|].
  destruct (is_ws c) eqn:Hc; [exact IH | exact Hc].
Qed.

Lemma trim_start_app l1 l2 :
  trim_start (l1 ++ l2) =
  if forallb is_ws l1 then trim_start l2 else trim_start l1 ++ l2.
Proof.
  induction l1 as [|c l1 IH]; simpl; [reflexivity|].
  destruct (is_ws c); simpl; [exact IH | reflexivity].
Qed.

Lemma trim_end_keeps_start s : starts_ws s = false -> starts_ws (trim_end s) = false.
Proof.
  destruct s as [|c s]; [reflexivity|]. simpl. intros Hc.
  unfold trim_end. simpl. rewrite trim_start_app. simpl. rewrite Hc.
  destruct (forallb is_ws (rev s)); simpl.
  - exact Hc.
  - rewrite rev_app_distr. simpl. exact Hc.
Qed.

Lemma trim_no_leading_ws s : starts_ws (trim s) = false.
Proof. apply trim_end_keeps_start, trim_start_not_ws. Qed.

Lemma trim_no_trailing_ws s : ends_ws (trim s) = false.
Proof. unfold trim, trim_end, ends_ws. rewrite rev_involutive. apply trim_start_not_ws. Qed.

#[export] Hint Resolve trim_no_leading_ws trim_no_trailing_ws : js.

(** A string that starts with white space splits with an empty first
    field. *)
Lemma split_ws_leading_ws s : starts_ws s = true -> exists ws, split_ws s = [] :: ws.
Proof.
  induction s as [|c s IH]; simpl; [discriminate|]. intros Hc. rewrite Hc.
  destruct (starts_ws s) eqn:Hs; [now apply IH | now eexists].
Qed.

Lemma includes_trans s u t : includes s u = true -> includes u t = true -> includes s t = true.
Proof.
  rewrite !includes_spec. intros (a & b & ->) (c & d & ->).
  exists (a ++ c), (d ++ b). now rewrite <- !app_assoc.
Qed.

Lemma includes_concat hs h : In h hs -> includes (concat hs) h = true.
Proof.
  intros Hin. apply in_split in Hin as (l1 & l2 & ->). apply includes_spec.
  exists (concat l1), (concat l2). now rewrite concat_app.
Qed.

(** ** Splitting a concatenation at white space *)

Lemma split_ws_cons c s :
  split_ws (c :: s) =
    if is_ws c then (if starts_ws s then split_ws s else [] :: split_ws s)
    else match split_ws s with [] => [[c]] | w :: ws => (c :: w) :: ws end.
Proof. reflexivity. Qed.

Lemma starts_ws_app_ws a c b :
  is_ws c = true -> starts_ws (a ++ c :: b) = match a with [] => true | _ => starts_ws a end.
Proof. destruct a; simpl; auto. Qed.

(** Keeping the fields a test [f] accepts, which rejects the empty
    field: [s.split(/\s+/).filter(f)]. *)
Section FilterFields.
Variable f : jsstr -> bool.
Hypothesis f_nil : f [] = false.

Lemma filter_split_ws_hd s :
  filter f (split_ws s) = filter f [hd [] (split_ws s)] ++ filter f (tl (split_ws s)).
Proof. destruct (split_ws s) eqn:E; [now apply split_ws_not_nil in E|]. simpl. now destruct (f l). Qed.

Lemma split_ws_app_ws_fields a c b :
  is_ws c = true ->
  hd [] (split_ws (a ++ c :: b)) = hd [] (split_ws a) /\
  filter f (tl (split_ws (a ++ c :: b))) = filter f (tl (split_ws a)) ++ filter f (split_ws b).
Proof.
  intros Hc. induction a as [|x a IH].
  - simpl app. rewrite split_ws_cons, Hc. simpl. destruct (starts_ws b) eqn:Hb.
    + destruct (split_ws_leading_ws b Hb) as (ws & Hws). rewrite Hws. simpl. now rewrite f_nil.
    + split; reflexivity.
  - rewrite <- app_comm_cons, !split_ws_cons, starts_ws_app_ws by exact Hc.
    destruct (is_ws x).
    + destruct a as [|y a].
      * simpl in IH |- *. rewrite f_nil. exact IH.
      * destruct (starts_ws (y :: a)); [exact IH|]. destruct IH as [Hh Ht]. split; [reflexivity|].
        cbn [tl]. rewrite (filter_split_ws_hd ((y :: a) ++ c :: b)), (filter_split_ws_hd (y :: a)), Hh, Ht.
        now rewrite app_assoc.
    + destruct IH as [Hh Ht].
      destruct (split_ws (a ++ c :: b)) as [|w ws] eqn:E1; [now apply split_ws_not_nil in E1|].
      destruct (split_ws a) as [|w' ws'] eqn:E2; [now apply split_ws_not_nil in E2|].
      simpl in Hh, Ht |- *. subst w. split; [reflexivity | exact Ht].
Qed.

Lemma filter_split_ws_app a c b :
  is_ws c = true -> filter f (split_ws (a ++ c :: b)) = filter f (split_ws a) ++ filter f (split_ws b).
Proof.
  intros Hc. destruct (split_ws_app_ws_fields a c b Hc) as [Hh Ht].
  rewrite (filter_split_ws_hd (a ++ _)), (filter_split_ws_hd a), Hh, Ht. now rewrite app_assoc.
Qed.

End FilterFields.
