(* ===== verification/Search.v ===== *)
(** * The query scorer: [performSearch] of [src/assets/js/search.js]

    [Post] is one object of [/search.json] with every field optional,
    because the code reads the fields without validating them;
    [index_value] is the value of the closure variable [searchIndex] (an
    array of posts, or whatever non-array JSON value the endpoint
    returned).  [performSearch] follows lines 17-51: the length guard, the
    lower-cased [split(/\s+/)] of the query, the [map] whose callback reads
    [post.title.toLowerCase()] and [post.content.toLowerCase()] (a
    [TypeError] on a post without them), the per-term [forEach] adding
    10/5/1, the [filter] on a positive score, the [sort] with comparator
    [b.score - a.score] (stable since ES2019, modelled by a stable
    insertion sort) and [slice(0, 20)]. *)

From Stdlib Require Import Ascii String.
From Stdlib Require Import List Bool Arith Lia Sorted Permutation.
From S2P Require Import Prelude JsString.
Import ListNotations.

Module Scorer.

(** ** Data *)

Record Post := mkPost {
  title : option jsstr;
  content : option jsstr;
  tags : option (list jsstr);
  url : option jsstr;
  date : option jsstr
}.

(** The value of [searchIndex]: initially [[]]. *)
Inductive index_value : Type :=
| IdxArray (posts : list Post)
| IdxOther.

(** [{ ...post, score }]. *)
Record Scored := mkScored { post : Post; score : nat }.

(** [(post.tags || [])]. *)
Definition tags_or_empty (p : Post) : list jsstr :=
  match tags p with
  | Some l => l
  | None => []
  end.

(** ** Operations *)

(** The body of [terms.forEach(term => ...)]. *)
Definition add_term (titleLower tagsLower contentLower : jsstr)
    (score : nat) (term : jsstr) : nat :=
  let score := if includes titleLower term then score + 10 else score in
  let score := if includes tagsLower term then score + 5 else score in
  if includes contentLower term then score + 1 else score.

(** The callback of [searchIndex.map(post => ...)]. *)
Definition score_post (terms : list jsstr) (p : Post) : jsres Scored :=
  match title p with
  | None => Throw TypeError
  | Some t =>
      let titleLower := toLowerCase t in
      match content p with
      | None => Throw TypeError
      | Some c =>
          let contentLower := toLowerCase c in
          let tagsLower := toLowerCase (join (js " ") (tags_or_empty p)) in
          Ok (mkScored p (fold_left (add_term titleLower tagsLower contentLower) terms 0))
      end
  end.

(** Insertion of [x], which precedes every element of [l] in the input,
    before the first element whose score is not greater. *)
Fixpoint insert_desc (x : Scored) (l : list Scored) : list Scored :=
  match l with
  | [] => [x]
  | y :: l' => if score y <=? score x then x :: l else y :: insert_desc x l'
  end.

(** [.sort((a, b) => b.score - a.score)]. *)
Definition sort_by_score (l : list Scored) : list Scored := fold_right insert_desc [] l.

Definition positive (r : Scored) : bool := 0 <? score r.

Definition max_results : nat := 20.

Definition performSearch (searchIndex : index_value) (query : jsstr) : jsres (list Scored) :=
  if length query <? 2 then Ok []
  else
    let terms := split_ws (toLowerCase query) in
    match searchIndex with
    | IdxOther => Throw TypeError
    | IdxArray posts =>
        scored <- mapM (score_post terms) posts ;;
        Ok (firstn max_results (sort_by_score (filter positive scored)))
    end.

(** ** Abstract specification *)

(** A post that [performSearch] can read. *)
Definition wf_post (p : Post) : Prop := title p <> None /\ content p <> None.

Definition text_of (o : option jsstr) : jsstr :=
  match o with
  | Some s => s
  | None => []
  end.

(** The points one term earns on one post: 10, 5 and 1 for a match in
    the lower-cased title, tags and content. *)
Definition term_points (p : Post) (term : jsstr) : nat :=
  (if includes (toLowerCase (text_of (title p))) term then 10 else 0) +
  (if includes (toLowerCase (join (js " ") (tags_or_empty p))) term then 5 else 0) +
  (if includes (toLowerCase (text_of (content p))) term then 1 else 0).

Definition spec_score (terms : list jsstr) (p : Post) : nat :=
  list_sum (map (term_points p) terms).

Definition sorted_desc : list Scored -> Prop := Sorted (fun x y => score y <= score x).

(** Two lists with the same posts of each score in the same order. *)
Definition same_classes (l1 l2 : list Scored) : Prop :=
  forall k, filter (fun r => score r =? k) l1 = filter (fun r => score r =? k) l2.

(** What the scorer promises: the positive-scored posts in a descending
    order that keeps index order among equal scores, cut at 20. *)
Definition spec_results (terms : list jsstr) (posts : list Post) (rs : list Scored) : Prop :=
  exists L, sorted_desc L /\
    same_classes L (filter positive (map (fun p => mkScored p (spec_score terms p)) posts)) /\
    rs = firstn max_results L.

(** ** The sort *)

Lemma insert_desc_perm x l : Permutation (insert_desc x l) (x :: l).
Proof.
  induction l as [|y l IH]; simpl; [reflexivity|].
  destruct (score y <=? score x); [reflexivity|].
  rewrite IH. apply perm_swap.
Qed.

Lemma sort_by_score_perm l : Permutation (sort_by_score l) l.
Proof.
  induction l as [|x l IH]; simpl; [reflexivity|].
  rewrite insert_desc_perm. now apply perm_skip.
Qed.

Lemma insert_desc_sorted x l : sorted_desc l -> sorted_desc (insert_desc x l).
Proof.
  induction 1 as [|y l Hs IH Hhd]; simpl; [repeat constructor|].
  destruct (score y <=? score x) eqn:Hyx; nat_reflect.
  - constructor; [constructor; assumption | constructor; exact Hyx].
  - constructor; [exact IH|].
    destruct l as [|z l]; simpl; [constructor; lia|].
    inversion Hhd; subst.
    destruct (score z <=? score x); constructor; lia.
Qed.

Lemma sort_by_score_sorted l : sorted_desc (sort_by_score l).
Proof. induction l; simpl; [constructor | now apply insert_desc_sorted]. Qed.

(** Stability: the elements of one score keep their input order. *)
Lemma insert_desc_classes x l : same_classes (insert_desc x l) (x :: l).
Proof.
  intros k. induction l as [|y l IH]; simpl; [reflexivity|].
  destruct (score y <=? score x) eqn:Hyx; [reflexivity|]. nat_reflect. simpl.
  rewrite IH. simpl.
  destruct (score y =? k) eqn:Hy, (score x =? k) eqn:Hx; nat_reflect; try lia; reflexivity.
Qed.

Lemma sort_by_score_classes l : same_classes (sort_by_score l) l.
Proof.
  intros k. induction l as [|x l IH]; simpl; [reflexivity|].
  rewrite insert_desc_classes. simpl. now rewrite IH.
Qed.

Lemma sorted_desc_hd x l : sorted_desc (x :: l) -> forall y, In y l -> score y <= score x.
Proof.
  intros H. apply Sorted_StronglySorted in H; [|intros a b c; lia].
  inversion H; subst. now apply Forall_forall.
Qed.

Lemma same_classes_in l1 l2 y : same_classes l1 l2 -> In y l2 -> In y l1.
Proof.
  intros H Hy. specialize (H (score y)).
  assert (Hf : In y (filter (fun r => score r =? score y) l2))
    by (apply filter_In; split; [exact Hy | apply Nat.eqb_refl]).
  rewrite <- H in Hf. now apply filter_In in Hf.
Qed.

Lemma same_classes_sym l1 l2 : same_classes l1 l2 -> same_classes l2 l1.
Proof. intros H k; symmetry; apply H. Qed.

(** A descending order that is stable is unique: the specification
    determines the sorted list. *)
Lemma sorted_desc_unique l1 l2 :
  sorted_desc l1 -> sorted_desc l2 -> same_classes l1 l2 -> l1 = l2.
Proof.
  revert l2; induction l1 as [|x l1 IH]; intros [|y l2] H1 H2 Hc.
  - reflexivity.
  - exfalso. eapply in_nil, same_classes_in; [exact Hc | now left].
  - exfalso. eapply in_nil, same_classes_in; [apply same_classes_sym, Hc | now left].
  - assert (Hxy : score x = score y).
    { pose proof (same_classes_in _ _ y Hc (or_introl eq_refl)) as [<-|Hy];
        [reflexivity|].
      pose proof (same_classes_in _ _ x (same_classes_sym _ _ Hc) (or_introl eq_refl))
        as [->|Hx]; [reflexivity|].
      apply (sorted_desc_hd _ _ H1) in Hy. apply (sorted_desc_hd _ _ H2) in Hx. lia. }
    pose proof (Hc (score x)) as Hk. simpl in Hk.
    rewrite Nat.eqb_refl, Hxy, Nat.eqb_refl in Hk. injection Hk as <- _.
    f_equal. apply IH; [eapply Sorted_inv, H1 | eapply Sorted_inv, H2 |].
    intros k. specialize (Hc k). simpl in Hc.
    destruct (score x =? k); [now injection Hc | exact Hc].
Qed.

Definition wf_postb (p : Post) : bool :=
  match title p, content p with
  | Some _, Some _ => true
  | _, _ => false
  end.

Lemma wf_postb_spec p : wf_postb p = true <-> wf_post p.
Proof.
  unfold wf_postb, wf_post.
  destruct (title p), (content p); split; intros H; try discriminate;
    try (destruct H; congruence); split; discriminate.
Qed.

Lemma classic_wf p : wf_post p \/ ~ wf_post p.
Proof.
  destruct (wf_postb p) eqn:E; [left | right]; rewrite <- wf_postb_spec; congruence.
Qed.

Lemma same_classes_trans l1 l2 l3 :
  same_classes l1 l2 -> same_classes l2 l3 -> same_classes l1 l3.
Proof. intros H1 H2 k; now rewrite H1. Qed.

(** ** Scoring a post *)

Lemma add_term_points p t c term s :
  title p = Some t -> content p = Some c ->
  add_term (toLowerCase t) (toLowerCase (join (js " ") (tags_or_empty p))) (toLowerCase c) s term
  = s + term_points p term.
Proof.
  intros Ht Hc. unfold add_term, term_points. rewrite Ht, Hc. cbn [text_of].
  repeat match goal with |- context [includes ?a ?b] => destruct (includes a b) end; lia.
Qed.

Lemma fold_add_term p t c terms s :
  title p = Some t -> content p = Some c ->
  fold_left (add_term (toLowerCase t) (toLowerCase (join (js " ") (tags_or_empty p))) (toLowerCase c)) terms s
  = s + spec_score terms p.
Proof.
  intros Ht Hc. unfold spec_score. revert s.
  induction terms as [|term terms IH]; intros s; simpl; [lia|].
  rewrite IH, (add_term_points p t c) by assumption. lia.
Qed.

(** The callback succeeds on a readable post, with the score of the
    specification. *)
Lemma score_post_wf terms p :
  wf_post p -> score_post terms p = Ok (mkScored p (spec_score terms p)).
Proof.
  intros [Ht Hc]. unfold score_post.
  destruct (title p) as [t|] eqn:Et; [|congruence].
  destruct (content p) as [c|] eqn:Ec; [|congruence].
  now rewrite (fold_add_term p t c) by assumption.
Qed.

Lemma score_post_not_wf terms p : ~ wf_post p -> score_post terms p = Throw TypeError.
Proof.
  unfold wf_post, score_post. intros H.
  destruct (title p); [|reflexivity]. destruct (content p); [|reflexivity].
  exfalso; apply H; split; discriminate.
Qed.

Lemma score_post_ok terms p r : score_post terms p = Ok r -> wf_post p.
Proof.
  intros H. destruct (classic_wf p) as [Hw|Hw]; [exact Hw|].
  rewrite score_post_not_wf in H by exact Hw. discriminate.
Qed.

(** [map] over the index throws exactly when some post is unreadable. *)
Lemma mapM_score_post terms posts :
  mapM (score_post terms) posts =
  if forallb wf_postb posts then Ok (map (fun p => mkScored p (spec_score terms p)) posts)
  else Throw TypeError.
Proof.
  induction posts as [|p posts IH]; simpl; [reflexivity|].
  destruct (wf_postb p) eqn:Hp; simpl.
  - rewrite score_post_wf by now apply wf_postb_spec. simpl. rewrite IH.
    now destruct (forallb wf_postb posts).
  - rewrite score_post_not_wf; [reflexivity|]. rewrite <- wf_postb_spec. congruence.
Qed.

Lemma forallb_wf_post posts : forallb wf_postb posts = true <-> Forall wf_post posts.
Proof.
  rewrite forallb_forall, Forall_forall.
  split; intros H p Hp; apply wf_postb_spec; auto.
Qed.

Definition spec_scored (terms : list jsstr) (posts : list Post) : list Scored :=
  map (fun p => mkScored p (spec_score terms p)) posts.

(** The successful runs of [performSearch] on an array, for a query that
    passes the length guard. *)
Lemma performSearch_array_ok posts q rs :
  2 <= length q ->
  performSearch (IdxArray posts) q = Ok rs <->
  Forall wf_post posts /\
  rs = firstn max_results (sort_by_score (filter positive (spec_scored (split_ws (toLowerCase q)) posts))).
Proof.
  intros Hq. unfold performSearch.
  replace (length q <? 2) with false by (symmetry; apply Nat.ltb_ge; lia).
  rewrite mapM_score_post, <- forallb_wf_post.
  destruct (forallb wf_postb posts); simpl; split.
  - intros [= <-]; now split.
  - now intros [_ ->].
  - discriminate.
  - now intros [? _].
Qed.

Lemma performSearch_ok_inv idx q rs :
  performSearch idx q = Ok rs ->
  rs = [] \/ exists posts, idx = IdxArray posts /\ 2 <= length q /\ Forall wf_post posts /\
    rs = firstn max_results (sort_by_score (filter positive (spec_scored (split_ws (toLowerCase q)) posts))).
Proof.
  intros H. destruct (Nat.ltb_spec (length q) 2) as [Hq|Hq].
  - left. unfold performSearch in H. apply Nat.ltb_lt in Hq. rewrite Hq in H. now injection H.
  - destruct idx as [posts|].
    + right. exists posts. apply performSearch_array_ok in H as [Hw ->]; auto.
    + unfold performSearch in H. replace (length q <? 2) with false in H
        by (symmetry; apply Nat.ltb_ge; lia). discriminate.
Qed.

(** Every post of a successful result list is readable. *)
Lemma performSearch_posts_wf idx q rs :
  performSearch idx q = Ok rs -> Forall (fun r => wf_post (post r)) rs.
Proof.
  intros H. apply performSearch_ok_inv in H as [->|(posts & _ & _ & Hw & ->)]; [constructor|].
  apply Forall_firstn. eapply Permutation_Forall; [symmetry; apply sort_by_score_perm|].
  apply Forall_forall. intros r Hr. apply filter_In in Hr as [Hr _].
  unfold spec_scored in Hr. apply in_map_iff in Hr as (p & <- & Hp).
  simpl. eapply Forall_forall; eauto.
Qed.

(** *** Properties *)

(** C6: a query shorter than two code units yields no result and no
    scan, whatever [searchIndex] holds (even a value that is not an
    array). *)
Theorem performSearch_short idx q :
  length q < 2 -> performSearch idx q = Ok [].
Proof. intros H. unfold performSearch. apply Nat.ltb_lt in H. now rewrite H. Qed.

(** C1: refinement.  On an index of readable posts and a query that
    passes the guard, [performSearch] returns exactly the lists allowed by
    the abstract specification [spec_results]: the positive-scored posts,
    scored by the additive 10/5/1 rule, in a descending order stable
    with respect to the index, cut at 20. *)
Theorem performSearch_refines posts q rs :
  2 <= length q -> Forall wf_post posts ->
  performSearch (IdxArray posts) q = Ok rs <->
  spec_results (split_ws (toLowerCase q)) posts rs.
Proof.
  intros Hq Hw. rewrite performSearch_array_ok by exact Hq. split.
  - intros [_ ->]. eexists; split; [apply sort_by_score_sorted|].
    split; [apply sort_by_score_classes | reflexivity].
  - intros (L & HL & Hc & ->). split; [exact Hw|]. f_equal.
    apply sorted_desc_unique; [exact HL | apply sort_by_score_sorted |].
    eapply same_classes_trans; [exact Hc|].
    apply same_classes_sym, sort_by_score_classes.
Qed.

(** C2: every successful result list is sorted by non-increasing score,
    holds only positive scores and has at most 20 entries. *)
Theorem performSearch_results idx q rs :
  performSearch idx q = Ok rs ->
  sorted_desc rs /\ Forall (fun r => 0 < score r) rs /\ length rs <= 20.
Proof.
  intros H. apply performSearch_ok_inv in H as [->|(posts & _ & _ & _ & ->)].
  - repeat constructor.
  - split; [apply Sorted_firstn, sort_by_score_sorted|].
    split; [|apply length_firstn_le].
    apply Forall_firstn. eapply Permutation_Forall; [symmetry; apply sort_by_score_perm|].
    eapply Forall_impl; [|apply Forall_filter_true]. intros r Hr. now apply Nat.ltb_lt.
Qed.

(** C5: ties keep the index order: two results of equal score come in
    the order of their posts in [searchIndex]. *)
Theorem performSearch_stable posts q rs r1 r2 :
  performSearch (IdxArray posts) q = Ok rs ->
  ordered r1 r2 rs -> score r1 = score r2 ->
  ordered (post r1) (post r2) posts.
Proof.
  intros H Hord Hs.
  apply performSearch_ok_inv in H as [->|(? & [= <-] & _ & _ & ->)].
  { destruct Hord as (a & b & c & Habc). now destruct a. }
  set (S := spec_scored _ posts) in *.
  apply (ordered_filter (fun r => score r =? score r1)) in Hord;
    [|apply Nat.eqb_refl | now rewrite Hs, Nat.eqb_refl].
  destruct (filter_firstn_prefix (fun r => score r =? score r1) max_results
              (sort_by_score (filter positive S))) as (rest & Hpre).
  apply (ordered_app_l _ _ _ rest) in Hord. rewrite <- Hpre, sort_by_score_classes in Hord.
  apply ordered_filter_inv, ordered_filter_inv, (ordered_map post) in Hord.
  unfold S, spec_scored in Hord. now rewrite map_map, map_id in Hord.
Qed.

(** C8: the error path.  [performSearch] throws a [TypeError] exactly
    when the query passes the guard and [searchIndex] is not an array or
    holds a post without a [title] or a [content]: one such post makes
    the whole search fail. *)
Theorem performSearch_throws idx q :
  performSearch idx q = Throw TypeError <->
  2 <= length q /\ (idx = IdxOther \/ exists posts, idx = IdxArray posts /\ ~ Forall wf_post posts).
Proof.
  unfold performSearch. destruct (Nat.ltb_spec (length q) 2) as [Hq|Hq].
  - split; [discriminate | lia].
  - destruct idx as [posts|].
    + rewrite mapM_score_post.
      destruct (forallb wf_postb posts) eqn:Hf; simpl; split.
      * discriminate.
      * intros [_ [?|(? & [= <-] & H)]]; [discriminate|].
        now apply forallb_wf_post in Hf.
      * intros _. split; [exact Hq|]. right. exists posts. split; [reflexivity|].
        rewrite <- forallb_wf_post. congruence.
      * reflexivity.
    + split; [intros _; split; [exact Hq | now left] | reflexivity].
Qed.

(** C12: the score of a post is additive over the query terms, so a
    repeated term counts once per occurrence in the query. *)
Theorem score_post_app t1 t2 p r1 r2 :
  score_post t1 p = Ok r1 -> score_post t2 p = Ok r2 ->
  score_post (t1 ++ t2) p = Ok (mkScored p (score r1 + score r2)).
Proof.
  intros H1 H2. pose proof (score_post_ok _ _ _ H1) as Hw.
  rewrite score_post_wf in * by exact Hw.
  injection H1 as <-. injection H2 as <-. simpl.
  unfold spec_score. now rewrite map_app, list_sum_app.
Qed.

Lemma term_points_le p term : term_points p term <= 16.
Proof.
  unfold term_points.
  repeat match goal with |- context [includes ?a ?b] => destruct (includes a b) end; lia.
Qed.

(** C25: a post earns at most 16 points per query term. *)
Theorem score_post_bound terms p r :
  score_post terms p = Ok r -> score r <= 16 * length terms.
Proof.
  intros H. pose proof (score_post_ok _ _ _ H) as Hw.
  rewrite score_post_wf in H by exact Hw. injection H as <-. simpl.
  unfold spec_score. induction terms as [|t terms IH]; simpl; [lia|].
  pose proof (term_points_le p t). lia.
Qed.

(** The empty term, which [includes] finds in every string, earns the
    full 16 points. *)
Lemma term_points_nil p : term_points p [] = 16.
Proof. unfold term_points. now rewrite !includes_nil. Qed.

(** C19: a query that starts with white space (the URL parameter [q] is
    scored untrimmed, line 126) splits into an empty first term that
    every post contains: every readable post scores at least 16, so the
    search returns min(20, n) posts of an index of n posts, each scored at
    least 16, whether or not it matches anything else of the query. *)
Theorem performSearch_leading_ws posts c q :
  Forall wf_post posts -> is_ws c = true -> q <> [] ->
  exists rs, performSearch (IdxArray posts) (c :: q) = Ok rs /\
    length rs = Nat.min max_results (length posts) /\
    Forall (fun r => 16 <= score r) rs.
Proof.
  intros Hw Hc Hq.
  assert (Hlen : 2 <= length (c :: q)) by (destruct q; [congruence | simpl; lia]).
  destruct (split_ws_leading_ws (toLowerCase (c :: q))) as (ws & Hsp);
    [simpl; now rewrite is_ws_lower|].
  set (S := spec_scored (split_ws (toLowerCase (c :: q))) posts).
  assert (HS : Forall (fun r => 16 <= score r) S).
  { unfold S, spec_scored. rewrite Hsp, Forall_map. apply Forall_forall.
    intros p _. unfold spec_score. simpl. rewrite term_points_nil. lia. }
  assert (Hpos : filter positive S = S).
  { apply forallb_filter_id, forallb_forall. intros r Hr.
    apply Nat.ltb_lt. eapply Forall_forall in HS; [|exact Hr]. lia. }
  eexists; split; [apply performSearch_array_ok; [exact Hlen | split; [exact Hw | reflexivity]]|].
  fold S. rewrite Hpos. split.
  - rewrite length_firstn, (Permutation_length (sort_by_score_perm S)).
    unfold S, spec_scored. now rewrite length_map.
  - apply Forall_firstn. eapply Permutation_Forall; [symmetry; apply sort_by_score_perm | exact HS].
Qed.

(** ** Concrete runs *)

Definition intro_post : Post :=
  mkPost (Some (js "Intro to Caching")) (Some (js "A cache stores..."))
    (Some [js "cache"; js "systems"]) (Some (js "/p1")) (Some (js "2024-01-01")).

Definition lines_post : Post :=
  mkPost (Some (js "CPU notes")) (Some (js "on cache lines"))
    (Some [js "hardware"]) (Some (js "/p2")) (Some (js "2024-02-01")).

(** ** Witnesses *)

Lemma performSearch_short_witness :
  length (js "a") < 2 /\ performSearch IdxOther (js "a") = Ok [].
Proof. split; [simpl; lia | apply performSearch_short; simpl; lia]. Defined.

Lemma performSearch_refines_witness :
  2 <= length (js "cache") /\ Forall wf_post [lines_post; intro_post] /\
  spec_results (split_ws (toLowerCase (js "cache"))) [lines_post; intro_post]
    [mkScored intro_post 6; mkScored lines_post 1].
Proof.
  assert (Hw : Forall wf_post [lines_post; intro_post])
    by (repeat constructor; discriminate).
  split; [simpl; lia | split; [exact Hw|]].
  apply (performSearch_refines [lines_post; intro_post] (js "cache")); [simpl; lia | exact Hw |].
  vm_compute. reflexivity.
Defined.

Lemma performSearch_results_witness :
  performSearch (IdxArray [lines_post; intro_post]) (js "cache")
    = Ok [mkScored intro_post 6; mkScored lines_post 1] /\
  sorted_desc [mkScored intro_post 6; mkScored lines_post 1] /\
  Forall (fun r => 0 < score r) [mkScored intro_post 6; mkScored lines_post 1] /\
  length [mkScored intro_post 6; mkScored lines_post 1] <= 20.
Proof.
  assert (H : performSearch (IdxArray [lines_post; intro_post]) (js "cache")
              = Ok [mkScored intro_post 6; mkScored lines_post 1])
    by (vm_compute; reflexivity).
  split; [exact H | exact (performSearch_results _ _ _ H)].
Defined.

Definition rust_a : Post :=
  mkPost (Some (js "Rust ownership")) (Some (js "")) None (Some (js "/r1")) (Some (js "2024-04-01")).

Definition rust_b : Post :=
  mkPost (Some (js "Learning RUST")) (Some (js "")) None (Some (js "/r2")) (Some (js "2024-05-01")).

Lemma performSearch_stable_witness : ordered rust_a rust_b [rust_a; rust_b].
Proof.
  apply (performSearch_stable [rust_a; rust_b] (js "rust")
           [mkScored rust_a 10; mkScored rust_b 10] (mkScored rust_a 10) (mkScored rust_b 10)).
  - vm_compute. reflexivity.
  - now exists [], [], [].
  - reflexivity.
Defined.

Lemma performSearch_leading_ws_witness :
  exists rs, performSearch (IdxArray [lines_post; intro_post]) (js " zz") = Ok rs /\
    length rs = Nat.min max_results 2 /\ Forall (fun r => 16 <= score r) rs.
Proof.
  apply (performSearch_leading_ws [lines_post; intro_post] " "%char (js "zz")).
  - repeat constructor; discriminate.
  - reflexivity.
  - discriminate.
Defined.

(** The worked example of the specification as the code computes it:
    "intro to caching" does not contain "cache", so the caching post
    scores 5 (tags) + 1 (content) = 6 per "cache", and 6 + 6 for the
    query "cache cache", not the 16 and 32 the specification announces. *)
Lemma score_post_app_witness :
  score_post ([js "cache"] ++ [js "cache"]) intro_post = Ok (mkScored intro_post (6 + 6)).
Proof.
  apply (score_post_app _ _ _ (mkScored intro_post 6) (mkScored intro_post 6));
    vm_compute; reflexivity.
Defined.

Lemma score_post_bound_witness : score (mkScored intro_post 6) <= 16 * length [js "cache"].
Proof. apply (score_post_bound [js "cache"] intro_post). vm_compute. reflexivity. Defined.

End Scorer.
