(* ===== verification/Highlight.v ===== *)
(** * Highlighting: [highlightText] and [escapeRegex] of [src/assets/js/search.js]

    [highlightText(text, query)] (lines 81-90) splits the query on white
    space, keeps the terms of length at least 2 and, term after term,
    replaces in the running result every case-insensitive occurrence of
    the term by [<mark>$1</mark>], through
    [new RegExp(`(${escapeRegex(term)})`, 'gi')].

    - [escapeRegex] (lines 92-94) puts a backslash before each of the
      fourteen characters of the class [[.*+?^${}()|[\]\\]]: exactly the
      SyntaxCharacters of the ECMAScript pattern grammar.
      [literal_of_source] reads a pattern made only of pattern characters
      and escaped syntax characters (the only shape [escapeRegex] can
      produce) back to the literal string it matches, so the regular
      expression of line 86 is modelled as a literal search for the term.
    - With the [i] flag and no [u] flag, two code units match when their
      [toUpperCase] agree; on Latin-1 code units this is equality of
      [toLowerCase], which [match_at] uses.
    - [replace_ci] is [String.prototype.replace] with a global regular
      expression: matches are found left to right, do not overlap, and
      each is wrapped in [<mark>...</mark>] keeping its own case ([$1]).
      An empty pattern (not reachable from [highlightText], whose terms
      have two code units at least) matches before every code unit and at
      the end. *)

From Equations Require Import Equations.
From Stdlib Require Import Ascii String.
From Stdlib Require Import List Bool Arith Lia.
From S2P Require Import Prelude JsString.
Import ListNotations.

Module Highlighter.

(** ** [escapeRegex] *)

Definition backslash : ascii := "092"%char.

(** The class [[.*+?^${}()|[\]\\]] of line 93. *)
Definition regex_special (c : ascii) : bool :=
  existsb (Ascii.eqb c) (js ".*+?^${}()|[]" ++ [backslash]).

(** [string.replace(/[.*+?^${}()|[\]\\]/g, '\\$&')]. *)
Definition escapeRegex (s : jsstr) : jsstr :=
  flat_map (fun c => if regex_special c then [backslash; c] else [c]) s.

(** The source of the regular expression of line 86. *)
Definition pattern_source (term : jsstr) : jsstr :=
  js "(" ++ escapeRegex term ++ js ")".

(** SyntaxCharacter of the ECMAScript pattern grammar:
    [^ $ \ . * + ? ( ) [ ] { } |]. *)
Definition syntax_char (c : ascii) : bool :=
  match nat_of_ascii c with
  | 36 | 40 | 41 | 42 | 43 | 46 | 63 | 91 | 92 | 93 | 94 | 123 | 124 | 125 => true
  | _ => false
  end.

(** The literal string a pattern of pattern characters and identity
    escapes of syntax characters matches; [None] for any other pattern. *)
Fixpoint literal_of_source (src : jsstr) : option jsstr :=
  match src with
  | [] => Some []
  | c :: rest =>
      if Ascii.eqb c backslash then
        match rest with
        | d :: rest' =>
            if syntax_char d then option_map (cons d) (literal_of_source rest') else None
        | [] => None
        end
      else if syntax_char c then None
      else option_map (cons c) (literal_of_source rest)
  end.

(** A single capturing group around a literal pattern. *)
Definition group_literal (src : jsstr) : option jsstr :=
  match src with
  | c :: r =>
      if Ascii.eqb c "("%char then
        match rev r with
        | d :: r' => if Ascii.eqb d ")"%char then literal_of_source (rev r') else None
        | [] => None
        end
      else None
  | [] => None
  end.

(** ** Global case-insensitive replacement *)

Definition open_tag : jsstr := js "<mark>".
Definition close_tag : jsstr := js "</mark>".

(** [<mark>$1</mark>] for the matched text [m]. *)
Definition mark (m : jsstr) : jsstr := open_tag ++ m ++ close_tag.

(** The pattern matches at the start of [s]. *)
Definition match_at (t s : jsstr) : bool := prefixb (toLowerCase t) (toLowerCase s).

(** Global replacement with the empty pattern. *)
Fixpoint replace_empty (s : jsstr) : jsstr :=
  match s with
  | [] => mark []
  | c :: s' => mark [] ++ c :: replace_empty s'
  end.

Equations replace_ci (t s : jsstr) : jsstr by wf (length s) lt :=
  replace_ci [] s := replace_empty s;
  replace_ci (a :: t') [] := [];
  replace_ci (a :: t') (c :: s') :=
    if match_at (a :: t') (c :: s')
    then mark (firstn (S (length t')) (c :: s')) ++ replace_ci (a :: t') (skipn (length t') s')
    else c :: replace_ci (a :: t') s'.
Next Obligation. rewrite length_skipn. lia. Qed.

(** The terms of line 83: [query.split(/\s+/).filter(t => t.length >= 2)]. *)
Definition highlight_terms (query : jsstr) : list jsstr :=
  filter (fun t => 2 <=? length t) (split_ws query).

(** One iteration of [terms.forEach]: [result = result.replace(regex, ...)],
    a [TypeError] when [result] is [undefined]. *)
Definition replace_step (acc : jsres (option jsstr)) (term : jsstr) : jsres (option jsstr) :=
  r <- acc ;;
  match r with
  | None => Throw TypeError
  | Some s => Ok (Some (replace_ci term s))
  end.

(** [highlightText(text, query)]; [None] is [undefined]. *)
Definition highlightText (text : option jsstr) (query : jsstr) : jsres (option jsstr) :=
  match query with
  | [] => Ok text
  | _ => fold_left replace_step (highlight_terms query) (Ok text)
  end.

(** ** The regular expression is a literal search *)

Lemma regex_special_syntax c : regex_special c = syntax_char c.
Proof. destruct c as [[] [] [] [] [] [] [] []]; reflexivity. Qed.

Lemma literal_of_source_escape s : literal_of_source (escapeRegex s) = Some s.
Proof.
  induction s as [|c s IH]; [reflexivity|]. simpl.
  destruct (regex_special c) eqn:Hc; simpl.
  - rewrite regex_special_syntax in Hc. rewrite Hc, IH. reflexivity.
  - destruct (Ascii.eqb c backslash) eqn:Hb.
    + apply Ascii.eqb_eq in Hb. subst c. discriminate.
    + rewrite <- regex_special_syntax, Hc, IH. reflexivity.
Qed.

(** C11: round trip of [escapeRegex].  The source [(escapeRegex(term))]
    built at line 86 is one capturing group around a pattern made only of
    pattern characters and escaped syntax characters, and the literal
    string it matches is [term] itself, for every term: no character of
    the term is read as regular-expression syntax, and none is escaped
    into a class escape such as [\d]. *)
Theorem escapeRegex_roundtrip term : group_literal (pattern_source term) = Some term.
Proof.
  unfold group_literal, pattern_source. simpl.
  rewrite rev_app_distr. simpl. rewrite rev_involutive.
  apply literal_of_source_escape.
Qed.

(** Highlighting a defined text never throws. *)
Lemma highlightText_defined text query :
  exists out, highlightText (Some text) query = Ok (Some out).
Proof.
  unfold highlightText. destruct query as [|q query]; [now exists text|].
  generalize (highlight_terms (q :: query)). intros terms. revert text.
  induction terms as [|t terms IH]; intros text; simpl; [now exists text | apply IH].
Qed.

(** ** Removing the markup *)

(** The text of a highlighted string: every [<mark>] and [</mark>]
    removed, left to right. *)
Equations unmark (s : jsstr) : jsstr by wf (length s) lt :=
  unmark [] := [];
  unmark (c :: s') :=
    if prefixb open_tag (c :: s') then unmark (skipn 5 s')
    else if prefixb close_tag (c :: s') then unmark (skipn 6 s')
    else c :: unmark s'.
Next Obligation. do 5 (destruct s' as [|? s']; simpl; [lia|]). lia. Qed.
Next Obligation. do 6 (destruct s' as [|? s']; simpl; [lia|]). lia. Qed.

(** A code unit that is not an angle bracket. *)
Definition plain (c : ascii) : bool :=
  negb (Ascii.eqb c "<"%char) && negb (Ascii.eqb c ">"%char).

(** A term whose highlighting can be undone: no angle bracket, and no
    case-insensitive match inside the tag names [mark] and [/mark]. *)
Definition safe_term (t : jsstr) : bool :=
  forallb plain t && negb (includes (js "/mark") (toLowerCase t)).

(** Strings made of plain code units and [<mark>]/[</mark>] tags. *)
Inductive marked : jsstr -> Prop :=
| marked_nil : marked []
| marked_plain c s : plain c = true -> marked s -> marked (c :: s)
| marked_open s : marked s -> marked (open_tag ++ s)
| marked_close s : marked s -> marked (close_tag ++ s).

#[local] Hint Constructors marked : core.

Lemma plain_lower c : plain (lower_cu c) = plain c.
Proof. destruct c as [[] [] [] [] [] [] [] []]; reflexivity. Qed.

Lemma plain_lt c : plain c = true -> Ascii.eqb c "<"%char = false.
Proof. unfold plain. now destruct (Ascii.eqb c "<"%char). Qed.

Lemma prefixb_tag_plain c s :
  plain c = true -> prefixb open_tag (c :: s) = false /\ prefixb close_tag (c :: s) = false.
Proof.
  intros Hc. change open_tag with ("<"%char :: js "mark>").
  change close_tag with ("<"%char :: js "/mark>"). cbn [prefixb].
  now rewrite Ascii.eqb_sym, (plain_lt c Hc).
Qed.

Lemma unmark_plain_cons c s : plain c = true -> unmark (c :: s) = c :: unmark s.
Proof.
  intros Hc. destruct (prefixb_tag_plain c s Hc) as [Ho Hcl].
  simp unmark. now rewrite Ho, Hcl.
Qed.

Lemma unmark_open s : unmark (open_tag ++ s) = unmark s.
Proof. change (open_tag ++ s) with ("<"%char :: (js "mark>" ++ s)). simp unmark. reflexivity. Qed.

Lemma unmark_close s : unmark (close_tag ++ s) = unmark s.
Proof. change (close_tag ++ s) with ("<"%char :: (js "/mark>" ++ s)). simp unmark. reflexivity. Qed.

Lemma unmark_plain_app p s : forallb plain p = true -> unmark (p ++ s) = p ++ unmark s.
Proof.
  induction p as [|c p IH]; simpl; [reflexivity|]. intros [Hc Hp]%andb_true_iff.
  rewrite unmark_plain_cons by exact Hc. now rewrite IH.
Qed.

Lemma marked_plain_app p s : forallb plain p = true -> marked s -> marked (p ++ s).
Proof.
  induction p as [|c p IH]; simpl; [auto|]. intros [Hc Hp]%andb_true_iff Hs. auto.
Qed.

Lemma marked_cons_inv c s : plain c = true -> marked (c :: s) -> marked s.
Proof.
  intros Hc H. remember (c :: s) as cs eqn:E.
  destruct H as [|c' s' _ Hs'|s' _|s' _]; [discriminate | now injection E as _ <- | |];
    simpl in E; injection E as <- _; discriminate.
Qed.

Lemma marked_plain_app_inv p s : forallb plain p = true -> marked (p ++ s) -> marked s.
Proof.
  induction p as [|c p IH]; simpl; [auto|]. intros [Hc Hp]%andb_true_iff Hs.
  exact (IH Hp (marked_cons_inv c _ Hc Hs)).
Qed.

Lemma unmark_plain s : forallb plain s = true -> unmark s = s.
Proof. intros H. rewrite <- (app_nil_r s) at 1. rewrite unmark_plain_app by exact H. now simp unmark; rewrite app_nil_r. Qed.

Lemma marked_of_plain s : forallb plain s = true -> marked s.
Proof. intros H. rewrite <- (app_nil_r s). now apply marked_plain_app. Qed.

(** ** Equations of the replacement *)

Lemma replace_nomatch t c s :
  t <> [] -> match_at t (c :: s) = false -> replace_ci t (c :: s) = c :: replace_ci t s.
Proof. destruct t as [|a t]; [congruence|]. intros _ H. simp replace_ci. now rewrite H. Qed.

Lemma replace_match t s :
  t <> [] -> match_at t s = true ->
  replace_ci t s = mark (firstn (length t) s) ++ replace_ci t (skipn (length t) s).
Proof.
  destruct t as [|a t]; [congruence|]. intros _ H.
  destruct s as [|c s]; [discriminate|]. simp replace_ci. now rewrite H.
Qed.

Lemma forallb_plain_lower w : forallb plain (toLowerCase w) = forallb plain w.
Proof. induction w as [|c w IH]; simpl; [reflexivity|]. now rewrite plain_lower, IH. Qed.

(** A match covers a window whose lower-case form is the term's. *)
Lemma match_at_window t s :
  match_at t s = true -> toLowerCase (firstn (length t) s) = toLowerCase t.
Proof.
  unfold match_at, toLowerCase. intros (r & Hr)%prefixb_spec.
  rewrite <- firstn_map, Hr, firstn_app, <- (length_map lower_cu t), Nat.sub_diag, firstn_all.
  simpl. apply app_nil_r.
Qed.

Lemma window_plain t s :
  forallb plain t = true -> match_at t s = true -> forallb plain (firstn (length t) s) = true.
Proof.
  intros Ht Hm. rewrite <- forallb_plain_lower, (match_at_window t s Hm), forallb_plain_lower.
  exact Ht.
Qed.

Lemma no_match_lt t s : t <> [] -> forallb plain t = true -> match_at t ("<"%char :: s) = false.
Proof.
  destruct t as [|a t]; [congruence|]. intros _ Ht. simpl in Ht.
  apply andb_true_iff in Ht as [Ha _]. rewrite <- plain_lower in Ha.
  unfold match_at. cbn [toLowerCase map prefixb].
  replace (lower_cu "<"%char) with "<"%char by reflexivity.
  now rewrite (plain_lt _ Ha).
Qed.

(** No match starts inside a tag name: after [<], the rest of a tag is a
    lower-case infix [u] of [/mark] followed by [>]. *)
Lemma no_match_tag_tail t u s :
  safe_term t = true -> includes (js "/mark") u = true -> toLowerCase u = u ->
  match_at t (u ++ ">"%char :: s) = false.
Proof.
  unfold safe_term. intros [Hp Hn]%andb_true_iff Hu Hlow. apply negb_true_iff in Hn.
  destruct (match_at t (u ++ ">"%char :: s)) eqn:Hm; [exfalso|reflexivity].
  unfold match_at in Hm. apply prefixb_spec in Hm as (r & Hr).
  unfold toLowerCase at 1 in Hr. rewrite map_app in Hr. fold (toLowerCase u) in Hr.
  rewrite Hlow in Hr. apply app_eq_app in Hr as (l & [[Hu' _] | [Ht' Hl]]).
  - apply includes_spec in Hu as (a & b & Hab). rewrite Hu', <- app_assoc in Hab.
    assert (includes (js "/mark") (toLowerCase t) = true) by (apply includes_spec; eauto).
    congruence.
  - destruct l as [|x l].
    + rewrite app_nil_r in Ht'. congruence.
    + injection Hl as Hx _.
      assert (Hpl : forallb plain (toLowerCase t) = true) by now rewrite forallb_plain_lower.
      rewrite Ht', forallb_app, <- Hx in Hpl. simpl in Hpl.
      now rewrite andb_false_r in Hpl.
Qed.

(** The replacement passes over a prefix where no match starts. *)
Lemma replace_through t u s :
  t <> [] -> (forall k, k < length u -> match_at t (skipn k u ++ s) = false) ->
  replace_ci t (u ++ s) = u ++ replace_ci t s.
Proof.
  intros Ht. induction u as [|c u IH]; intros H; [reflexivity|].
  simpl. rewrite replace_nomatch; [| exact Ht | exact (H 0 ltac:(simpl; lia))].
  rewrite IH; [reflexivity|]. intros k Hk. exact (H (S k) ltac:(simpl; lia)).
Qed.

Lemma replace_open t s :
  safe_term t = true -> t <> [] -> replace_ci t (open_tag ++ s) = open_tag ++ replace_ci t s.
Proof.
  intros Hs Ht. pose proof Hs as Hp. unfold safe_term in Hp. apply andb_true_iff in Hp as [Hp _].
  apply replace_through; [exact Ht|]. intros k Hk. simpl in Hk.
  destruct k as [|[|[|[|[|[|k]]]]]]; [exact (no_match_lt t _ Ht Hp) | | | | | | lia].
  - exact (no_match_tag_tail t (js "mark") s Hs eq_refl eq_refl).
  - exact (no_match_tag_tail t (js "ark") s Hs eq_refl eq_refl).
  - exact (no_match_tag_tail t (js "rk") s Hs eq_refl eq_refl).
  - exact (no_match_tag_tail t (js "k") s Hs eq_refl eq_refl).
  - exact (no_match_tag_tail t [] s Hs eq_refl eq_refl).
Qed.

Lemma replace_close t s :
  safe_term t = true -> t <> [] -> replace_ci t (close_tag ++ s) = close_tag ++ replace_ci t s.
Proof.
  intros Hs Ht. pose proof Hs as Hp. unfold safe_term in Hp. apply andb_true_iff in Hp as [Hp _].
  apply replace_through; [exact Ht|]. intros k Hk. simpl in Hk.
  destruct k as [|[|[|[|[|[|[|k]]]]]]]; [exact (no_match_lt t _ Ht Hp) | | | | | | | lia].
  - exact (no_match_tag_tail t (js "/mark") s Hs eq_refl eq_refl).
  - exact (no_match_tag_tail t (js "mark") s Hs eq_refl eq_refl).
  - exact (no_match_tag_tail t (js "ark") s Hs eq_refl eq_refl).
  - exact (no_match_tag_tail t (js "rk") s Hs eq_refl eq_refl).
  - exact (no_match_tag_tail t (js "k") s Hs eq_refl eq_refl).
  - exact (no_match_tag_tail t [] s Hs eq_refl eq_refl).
Qed.

(** One global replacement with a safe term keeps a marked string
    marked and does not change its text. *)
Lemma replace_ci_marked t s :
  safe_term t = true -> t <> [] -> marked s ->
  marked (replace_ci t s) /\ unmark (replace_ci t s) = unmark s.
Proof.
  intros Hsafe Ht Hm. remember (length s) as n eqn:Hn. revert s Hn Hm.
  induction n as [n IH] using lt_wf_ind. intros s Hn Hm.
  pose proof Hsafe as Hp. unfold safe_term in Hp. apply andb_true_iff in Hp as [Hp _].
  destruct Hm as [|c s Hc Hs|s Hs|s Hs].
  - destruct t; [congruence|]. simp replace_ci. split; [constructor | reflexivity].
  - destruct (match_at t (c :: s)) eqn:Hmatch.
    + rewrite replace_match by assumption.
      set (w := firstn (length t) (c :: s)). set (r := skipn (length t) (c :: s)).
      assert (Hw : forallb plain w = true) by now apply window_plain.
      assert (Hcs : c :: s = w ++ r) by (symmetry; apply firstn_skipn).
      assert (Hr : marked r) by (apply (marked_plain_app_inv w); [exact Hw | rewrite <- Hcs; auto]).
      destruct (IH (length r)) with (s := r) as [IHm IHu]; [| reflexivity | exact Hr |].
      { subst n. unfold r. rewrite length_skipn. destruct t; [congruence | simpl; lia]. }
      unfold mark. rewrite <- !app_assoc. split.
      * apply marked_open, marked_plain_app, marked_close; assumption.
      * rewrite unmark_open, unmark_plain_app, unmark_close, IHu by exact Hw.
        rewrite Hcs, unmark_plain_app by exact Hw. reflexivity.
    + rewrite replace_nomatch by assumption.
      destruct (IH (length s)) with (s := s) as [IHm IHu]; [subst n; simpl; lia | reflexivity | exact Hs |].
      split; [now constructor|]. now rewrite !unmark_plain_cons, IHu.
  - rewrite replace_open by assumption.
    destruct (IH (length s)) with (s := s) as [IHm IHu];
      [subst n; rewrite length_app; simpl; lia | reflexivity | exact Hs |].
    split; [now constructor|]. now rewrite !unmark_open.
  - rewrite replace_close by assumption.
    destruct (IH (length s)) with (s := s) as [IHm IHu];
      [subst n; rewrite length_app; simpl; lia | reflexivity | exact Hs |].
    split; [now constructor|]. now rewrite !unmark_close.
Qed.

Lemma fold_replace_marked terms s :
  Forall (fun t => safe_term t = true /\ t <> []) terms -> marked s ->
  exists out, fold_left replace_step terms (Ok (Some s)) = Ok (Some out) /\
    marked out /\ unmark out = unmark s.
Proof.
  revert s. induction terms as [|t terms IH]; intros s Hts Hs; simpl.
  - now exists s.
  - inversion Hts as [|? ? [Hsafe Hne] Hrest]; subst.
    destruct (replace_ci_marked t s Hsafe Hne Hs) as [Hm Hu].
    destruct (IH _ Hrest Hm) as (out & Hout & Hmo & Huo).
    exists out. split; [exact Hout | split; [exact Hmo | congruence]].
Qed.

(** C10: round trip of [highlightText].  For a text without angle
    brackets (what the escaping the specification requires would give)
    and a query whose highlighted terms contain no angle bracket and do
    not occur in the tag name [/mark], highlighting succeeds and
    removing the [<mark>] tags gives the text back: highlighting loses
    and corrupts nothing, and each match keeps its own case. *)
Theorem highlightText_roundtrip text query :
  forallb plain text = true ->
  Forall (fun t => safe_term t = true) (highlight_terms query) ->
  exists out, highlightText (Some text) query = Ok (Some out) /\ unmark out = text.
Proof.
  intros Htext Hterms. unfold highlightText.
  destruct query as [|q query]; [exists text; split; [reflexivity | now apply unmark_plain]|].
  destruct (fold_replace_marked (highlight_terms (q :: query)) text) as (out & Hout & _ & Hu).
  - apply Forall_forall. intros t Ht. split; [exact (proj1 (Forall_forall _ _) Hterms t Ht)|].
    unfold highlight_terms in Ht. rewrite filter_In in Ht. destruct Ht as [_ Hlen].
    intros ->. discriminate.
  - now apply marked_of_plain.
  - exists out. split; [exact Hout|]. rewrite Hu. now apply unmark_plain.
Qed.

(** *** Terms one after the other *)

Lemma highlightText_fold text query :
  highlightText text query = fold_left replace_step (highlight_terms query) (Ok text).
Proof. destruct query; reflexivity. Qed.

Lemma fold_replace_throw terms e : fold_left replace_step terms (Throw e) = Throw e.
Proof. induction terms as [|t terms IH]; [reflexivity | exact IH]. Qed.

Lemma highlight_terms_app q1 c q2 :
  is_ws c = true -> highlight_terms (q1 ++ c :: q2) = highlight_terms q1 ++ highlight_terms q2.
Proof. intros Hc. unfold highlight_terms. now apply filter_split_ws_app. Qed.

(** A term absent from the text, case aside, leaves it unchanged. *)
Lemma replace_absent t s :
  t <> [] -> includes (toLowerCase s) (toLowerCase t) = false -> replace_ci t s = s.
Proof.
  intros Ht. induction s as [|c s IH]; intros Hin.
  - destruct t; [congruence|]. now simp replace_ci.
  - simpl in Hin. apply orb_false_iff in Hin as [Hm Hin].
    rewrite replace_nomatch by assumption. now rewrite IH.
Qed.

Lemma highlightText_absent s query :
  Forall (fun w => includes (toLowerCase s) (toLowerCase w) = false) (highlight_terms query) ->
  highlightText (Some s) query = Ok (Some s).
Proof.
  rewrite highlightText_fold. assert (Hlong : Forall (fun w => w <> []) (highlight_terms query)).
  { apply Forall_forall. intros w Hw. unfold highlight_terms in Hw. apply filter_In in Hw as [_ Hl].
    intros ->. discriminate. }
  revert Hlong. generalize (highlight_terms query). intros terms Hne Hab.
  induction terms as [|w terms IH]; [reflexivity|]. inversion Hne; inversion Hab; subst.
  simpl. rewrite replace_absent by assumption. now apply IH.
Qed.

(** C21: highlighting is sequential, term by term: highlighting with the
    query [q1 ++ c :: q2], [c] white space, is highlighting with [q1] and
    then highlighting the result with [q2].  The terms of [q2] thus run
    over the [<mark>] tags inserted for [q1], and a later term that occurs
    in the tags rewrites them. *)
Theorem highlightText_sequential text q1 c q2 :
  is_ws c = true ->
  highlightText text (q1 ++ c :: q2) = (r <- highlightText text q1 ;; highlightText r q2).
Proof.
  intros Hc. rewrite !highlightText_fold, highlight_terms_app, fold_left_app by exact Hc.
  destruct (fold_left replace_step (highlight_terms q1) (Ok text)) as [r|e]; simpl.
  - now rewrite highlightText_fold.
  - apply fold_replace_throw.
Qed.

(** ** Witnesses *)

Lemma highlightText_roundtrip_witness :
  exists out, highlightText (Some (js "Caching a Cache")) (js "cache x")
    = Ok (Some out) /\ unmark out = js "Caching a Cache".
Proof. apply highlightText_roundtrip; vm_compute; repeat constructor. Defined.

(** The query "ab mark" on the title "ab": the second term rewrites the
    tags inserted for the first, [<<mark>mark</mark>>ab</<mark>mark</mark>>]. *)
Lemma highlightText_sequential_witness :
  highlightText (Some (js "ab")) (js "ab" ++ " "%char :: js "mark") =
  (r <- highlightText (Some (js "ab")) (js "ab") ;; highlightText r (js "mark")) /\
  highlightText (Some (js "ab")) (js "ab mark")
    = Ok (Some (js "<<mark>mark</mark>>ab</<mark>mark</mark>>")).
Proof. split; [apply highlightText_sequential; reflexivity | vm_compute; reflexivity]. Defined.

End Highlighter.
