(* ===== verification/Render.v ===== *)
(** * The result renderer: [renderResults] of [src/assets/js/search.js]

    [renderResults(results, query)] (lines 53-79) writes the
    [innerHTML] of the results element: nothing when the element is
    missing, the "no results" paragraph for an empty list, and otherwise
    the concatenation of one [<article>] block per result, built by a
    template literal that interpolates [post.url], the highlighted title,
    [post.date], the tag badges and the highlighted content, none of them
    escaped.  A missing field interpolates as the text [undefined].  The
    template text is reproduced code unit for code unit, its line breaks
    and indentation included.

    The element is [option jsstr] (its [innerHTML], [None] when
    [getElementById] found nothing); [renderResults] returns the new
    element, or the exception [highlightText] throws on an undefined
    title or content. *)

From Stdlib Require Import Ascii String.
From Stdlib Require Import List Bool Arith Lia.
From S2P Require Import Prelude JsString Search Highlight.
Import ListNotations.
Import Scorer Highlighter.

Module Renderer.

(** A template of the source: a backquote stands for a double quote and
    a tilde for a line feed (neither occurs in the template text). *)
Definition tpl (s : string) : jsstr :=
  map (fun c => if Ascii.eqb c "`"%char then "034"%char
                else if Ascii.eqb c "~"%char then "010"%char else c) (js s).

(** [${x}] for a value that may be [undefined]. *)
Definition interp (o : option jsstr) : jsstr :=
  match o with
  | Some s => s
  | None => js "undefined"
  end.

Definition no_results_html : jsstr := tpl "<p class=`no-results`>No results found</p>".

(** [tag => `<span class="search-tag">${tag}</span>`]. *)
Definition tag_html (tag : jsstr) : jsstr :=
  tpl "<span class=`search-tag`>" ++ tag ++ js "</span>".

Definition piece1 : jsstr := tpl "~        <article class=`search-result`>~          <a href=`".
Definition piece2 : jsstr := tpl "` class=`search-result-title`>".
Definition piece3 : jsstr := tpl "</a>~          <div class=`search-result-meta`>~            <time>".
Definition piece4 : jsstr := tpl "</time>~            ".
Definition piece5 : jsstr := tpl "~          </div>~          <p class=`search-result-excerpt`>".
Definition piece6 : jsstr := tpl "</p>~        </article>~      ".

(** The callback of [results.map(post => ...)]. *)
Definition result_html (query : jsstr) (r : Scored) : jsres jsstr :=
  let p := post r in
  let tags := concat (map tag_html (tags_or_empty p)) in
  t <- highlightText (title p) query ;;
  c <- highlightText (content p) query ;;
  Ok (piece1 ++ interp (url p) ++ piece2 ++ interp t ++ piece3 ++ interp (date p) ++
      piece4 ++ tags ++ piece5 ++ interp c ++ piece6).

Definition renderResults (searchResults : option jsstr) (results : list Scored) (query : jsstr)
    : jsres (option jsstr) :=
  match searchResults with
  | None => Ok None
  | Some _ =>
      match results with
      | [] => Ok (Some no_results_html)
      | _ => html <- mapM (result_html query) results ;; Ok (Some (concat html))
      end
  end.

(** ** Properties *)

Lemma result_html_wf query r :
  wf_post (post r) -> exists h, result_html query r = Ok h.
Proof.
  intros [Ht Hc]. unfold result_html.
  destruct (title (post r)) as [t|]; [|congruence].
  destruct (content (post r)) as [c|]; [|congruence].
  destruct (highlightText_defined t query) as (t' & Ht'). rewrite Ht'. simpl.
  destruct (highlightText_defined c query) as (c' & Hc'). rewrite Hc'. simpl.
  now eexists.
Qed.

Lemma mapM_result_html query rs :
  Forall (fun r => wf_post (post r)) rs -> exists hs, mapM (result_html query) rs = Ok hs.
Proof.
  induction 1 as [|r rs Hr _ IH]; simpl; [now exists []|].
  destruct (result_html_wf query r Hr) as (h & ->). destruct IH as (hs & ->). now eexists.
Qed.

(** [renderResults] writes into the element it is given: it returns an
    element exactly when it was given one. *)
Lemma renderResults_element el rs q o :
  renderResults el rs q = Ok o -> (o = None <-> el = None).
Proof.
  destruct el as [e|]; simpl; [|intros [= <-]; tauto].
  destruct rs as [|r rs]; [intros [= <-]; split; discriminate|].
  destruct (mapM _ _); simpl; [intros [= <-]; split; discriminate | discriminate].
Qed.

(** C9: rendering what a successful search returned, with the same
    query, never throws: the renderer writes the results element, with
    the "no results" paragraph exactly when the list is empty. *)
Theorem render_after_search idx q rs el :
  performSearch idx q = Ok rs ->
  exists html, renderResults (Some el) rs q = Ok (Some html) /\
    (html = no_results_html <-> rs = []).
Proof.
  intros H. apply performSearch_posts_wf in H.
  destruct rs as [|r rs']; [exists no_results_html; simpl; tauto|].
  destruct (mapM_result_html q (r :: rs') H) as (hs & Hhs).
  exists (concat hs). unfold renderResults. rewrite Hhs. simpl. split; [reflexivity|].
  split; [|discriminate]. intros Heq. exfalso.
  apply mapM_ok_iff in Hhs. inversion Hhs as [|? h ? ? Hh _]; subst.
  unfold result_html in Hh.
  destruct (highlightText (title (post r)) q) as [[t|]|]; simpl in Hh; try discriminate;
  destruct (highlightText (content (post r)) q) as [[c|]|]; simpl in Hh; try discriminate;
  injection Hh as <-; apply (f_equal (firstn 1)) in Heq; simpl in Heq; discriminate.
Qed.

(** C20: document text is interpolated without escaping: in every
    rendering of a result list, the title of each result that holds no
    term of the query (case aside) appears verbatim as the text of its
    anchor, markup included. *)
Theorem render_unescaped_title el rs q html r t :
  renderResults (Some el) rs q = Ok (Some html) -> In r rs -> title (post r) = Some t ->
  Forall (fun w => includes (toLowerCase t) (toLowerCase w) = false) (highlight_terms q) ->
  includes html (piece2 ++ t ++ piece3) = true.
Proof.
  intros Hr Hin Ht Hab. destruct rs as [|r0 rs']; [contradiction|]. unfold renderResults in Hr.
  destruct (mapM (result_html q) (r0 :: rs')) as [hs|e] eqn:Hm; simpl in Hr; [|discriminate].
  injection Hr as <-. apply mapM_ok_iff in Hm.
  destruct (Forall2_in_l _ _ _ _ Hm Hin) as (h & Hh & Hrh).
  apply (includes_trans _ h); [now apply includes_concat|].
  unfold result_html in Hrh. rewrite Ht, (highlightText_absent _ _ Hab) in Hrh. simpl in Hrh.
  destruct (highlightText (content (post r)) q) as [c|e]; simpl in Hrh; [|discriminate].
  injection Hrh as <-. apply includes_spec. exists (piece1 ++ interp (url (post r))).
  eexists. now rewrite <- !app_assoc.
Qed.

(** ** Witnesses *)

Definition script_post : Post :=
  mkPost (Some (js "<script>steal()</script>")) (Some (js "pwned")) None
    (Some (js "/x")) (Some (js "2024-06-01")).

(** The page rendered for a post whose title is a script element, found
    by its content. *)
Definition script_html : jsstr :=
  match renderResults (Some []) [mkScored script_post 1] (js "pwned") with
  | Ok (Some h) => h
  | _ => []
  end.

Lemma render_unescaped_title_witness :
  includes script_html (piece2 ++ js "<script>steal()</script>" ++ piece3) = true.
Proof.
  apply (render_unescaped_title [] [mkScored script_post 1] (js "pwned") _ (mkScored script_post 1)).
  - vm_compute. reflexivity.
  - now left.
  - reflexivity.
  - constructor; [vm_compute; reflexivity | constructor].
Defined.

Lemma render_after_search_witness :
  exists html, renderResults (Some []) [mkScored intro_post 6; mkScored lines_post 1] (js "cache")
    = Ok (Some html) /\
    (html = no_results_html <-> [mkScored intro_post 6; mkScored lines_post 1] = []).
Proof.
  apply (render_after_search (IdxArray [lines_post; intro_post]) (js "cache")).
  vm_compute. reflexivity.
Defined.

End Renderer.
