(* ===== verification/Controller.v ===== *)
(** * The query controller: [init], [debounce] and [loadSearchIndex]

    Lines 96-136 of [src/assets/js/search.js], with the asynchronous
    [loadSearchIndex] of lines 8-15, as a state machine over the page.

    - The search component is reached through the interface
      [SearchEngine]: an index type with its initial value, [search] (the
      role of [performSearch]) and [render] (the role of [renderResults]).
      The theorems of [WithEngine] hold for every engine; the instance
      [site_engine] at the end plugs in [Scorer.performSearch] and
      [Renderer.renderResults].
    - [Page] holds the state the closures share: the input element's
      value and the results element's [innerHTML] ([None] for a missing
      element), [searchIndex], whether the [input] listener is installed,
      the outstanding [fetch], the [timeout] variable of the [debounce]
      closure, the pending [setTimeout] tasks with their ids and due
      times, the clock, and a trace of observations (each call of the
      search with its query, each render, each exception reported).
    - Events: an [input] event after [dt] time units ([input_at]), the
      event loop running the earliest due timer ([fire]; ties in
      scheduling order), and the settling of the index fetch after [dt]
      ([settle_at]).  An event at time [t] is possible only when no timer
      is overdue at [t].  [step] is the transition relation and
      [reachable] its closure from [init]. *)

From Stdlib Require Import Ascii String.
From Stdlib Require Import List Bool Arith Lia.
From S2P Require Import Prelude JsString Search Render.
Import ListNotations.

Module Controller.

(** ** The interface of the search component *)

Class SearchEngine := {
  Index : Type;
  Results : Type;
  initial_index : Index;
  search : Index -> jsstr -> jsres Results;
  render : option jsstr -> Results -> jsstr -> jsres (option jsstr);
  (** [renderResults] writes into the element it is given, or into
      nothing when there is none. *)
  render_element : forall el rs q o, render el rs q = Ok o -> (o = None <-> el = None)
}.

(** The callbacks given to [setTimeout]. *)
Inductive Task : Type :=
| DebouncedSearch          (** [() => func.apply(this, args)], line 100 *)
| UrlSearch (q : jsstr).   (** the callback of line 125 *)

Record Timer := mkTimer { t_id : nat; t_due : nat; t_task : Task }.

(** What an observer of the page sees happen. *)
Inductive Obs : Type :=
| Scanned (q : jsstr)      (** the search was called with [q] *)
| Rendered                 (** the results element was written *)
| Uncaught (e : js_exn)    (** an exception escaped a timer callback *)
| LoadError (e : js_exn).  (** [console.error] of line 13 *)

Section WithEngine.
Context {E : SearchEngine}.

(** How the [fetch] of [/search.json] settles: with the parsed body, or
    with the exception the [catch] of line 12 receives. *)
Inductive settlement : Type :=
| Loaded (v : Index)
| LoadFailed (e : js_exn).

Record Page := mkPage {
  input_value : option jsstr;
  results_html : option jsstr;
  index : Index;
  listening : bool;
  fetch_pending : bool;
  fetches : nat;
  debounce_timeout : option nat;
  timers : list Timer;
  next_id : nat;
  now : nat;
  trace : list Obs
}.

(** ** Timers *)

Definition set_timers (st : Page) (ts : list Timer) (nid : nat) : Page :=
  mkPage (input_value st) (results_html st) (index st) (listening st) (fetch_pending st)
    (fetches st) (debounce_timeout st) ts nid (now st) (trace st).

(** [setTimeout(task, delay)]: the new timer and its id. *)
Definition setTimeout (task : Task) (delay : nat) (st : Page) : Page * nat :=
  (set_timers st (timers st ++ [mkTimer (next_id st) (now st + delay) task]) (S (next_id st)),
   next_id st).

(** The timer id [n] is the value [id] ([undefined] names no timer). *)
Definition names_timer (id : option nat) (n : nat) : bool :=
  match id with
  | Some i => n =? i
  | None => false
  end.

(** [clearTimeout(id)]: a no-op for [undefined] or a timer that already ran. *)
Definition clearTimeout (id : option nat) (st : Page) : Page :=
  set_timers st (filter (fun tm => negb (names_timer id (t_id tm))) (timers st)) (next_id st).

Definition set_timeout_var (st : Page) (v : option nat) : Page :=
  mkPage (input_value st) (results_html st) (index st) (listening st) (fetch_pending st)
    (fetches st) v (timers st) (next_id st) (now st) (trace st).

(** The function [debounce(func, 300)] returns, run on an input event:
    [clearTimeout(timeout); timeout = setTimeout(..., wait)]. *)
Definition debounce_wait : nat := 300.

Definition debounced (st : Page) : Page :=
  let st1 := clearTimeout (debounce_timeout st) st in
  let (st2, id) := setTimeout DebouncedSearch debounce_wait st1 in
  set_timeout_var st2 (Some id).

(** ** Events *)

Definition set_input (st : Page) (v : jsstr) : Page :=
  mkPage (Some v) (results_html st) (index st) (listening st) (fetch_pending st)
    (fetches st) (debounce_timeout st) (timers st) (next_id st) (now st) (trace st).

(** The user edits the input (which must exist): the value changes and
    the [input] listener, when installed, runs. *)
Definition dispatch_input (v : jsstr) (st : Page) : option Page :=
  match input_value st with
  | None => None
  | Some _ => Some (if listening st then debounced (set_input st v) else set_input st v)
  end.

Definition set_results (st : Page) (el : option jsstr) (obs : list Obs) : Page :=
  mkPage (input_value st) el (index st) (listening st) (fetch_pending st)
    (fetches st) (debounce_timeout st) (timers st) (next_id st) (now st) (trace st ++ obs).

(** [const results = performSearch(q); renderResults(results, q);] with
    an exception escaping the callback reported and nothing written. *)
Definition search_and_render (q : jsstr) (st : Page) : Page :=
  match search (index st) q with
  | Throw e => set_results st (results_html st) [Scanned q; Uncaught e]
  | Ok rs =>
      match render (results_html st) rs q with
      | Throw e => set_results st (results_html st) [Scanned q; Uncaught e]
      | Ok el => set_results st el [Scanned q; Rendered]
      end
  end.

(** The query a task searches: the trimmed input value for the debounced
    callback (line 113), the raw URL parameter for the other (line 126). *)
Definition task_query (task : Task) (st : Page) : jsstr :=
  match task with
  | DebouncedSearch => trim (match input_value st with Some v => v | None => [] end)
  | UrlSearch q => q
  end.

Definition run_task (task : Task) (st : Page) : Page := search_and_render (task_query task st) st.

(** The timer the event loop runs next: the earliest due, the first
    scheduled among equals. *)
Fixpoint earliest (ts : list Timer) : option Timer :=
  match ts with
  | [] => None
  | tm :: ts' =>
      match earliest ts' with
      | Some tm' => if t_due tm' <? t_due tm then Some tm' else Some tm
      | None => Some tm
      end
  end.

Definition set_clock (st : Page) (t : nat) : Page :=
  mkPage (input_value st) (results_html st) (index st) (listening st) (fetch_pending st)
    (fetches st) (debounce_timeout st) (timers st) (next_id st) t (trace st).

Definition fire (st : Page) : option Page :=
  match earliest (timers st) with
  | None => None
  | Some tm =>
      let st1 := clearTimeout (Some (t_id tm)) (set_clock st (t_due tm)) in
      Some (run_task (t_task tm) st1)
  end.

(** No timer is overdue at time [t]. *)
Definition none_overdue (t : nat) (st : Page) : bool :=
  forallb (fun tm => t <=? t_due tm) (timers st).

Definition input_at (dt : nat) (v : jsstr) (st : Page) : option Page :=
  if none_overdue (now st + dt) st then dispatch_input v (set_clock st (now st + dt)) else None.

(** The body of [loadSearchIndex] after its [await]s. *)
Definition settle (s : settlement) (st : Page) : Page :=
  match s with
  | Loaded v =>
      mkPage (input_value st) (results_html st) v (listening st) false
        (fetches st) (debounce_timeout st) (timers st) (next_id st) (now st) (trace st)
  | LoadFailed e =>
      mkPage (input_value st) (results_html st) (index st) (listening st) false
        (fetches st) (debounce_timeout st) (timers st) (next_id st) (now st) (trace st ++ [LoadError e])
  end.

Definition settle_at (dt : nat) (s : settlement) (st : Page) : option Page :=
  if fetch_pending st && none_overdue (now st + dt) st
  then Some (settle s (set_clock st (now st + dt))) else None.

(** ** [init] *)

(** The page before [init] runs: the two elements (present or not),
    [searchIndex = []], no timer, clock at 0. *)
Definition blank (input results : option jsstr) : Page :=
  mkPage input results initial_index false false 0 None [] 0 0 [].

(** [init()], given the [q] parameter of the URL ([None] when absent). *)
Definition init (input results : option jsstr) (url_q : option jsstr) : Page :=
  let st := blank input results in
  match input, results with
  | Some _, Some _ =>
      let st1 := mkPage input results initial_index true true 1 None [] 0 0 [] in
      match url_q with
      | Some ((_ :: _) as q) => fst (setTimeout (UrlSearch q) 500 (set_input st1 q))
      | _ => st1
      end
  | _, _ => st
  end.

Inductive Event : Type :=
| EvInput (dt : nat) (v : jsstr)
| EvFire
| EvSettle (dt : nat) (s : settlement).

Definition step_fn (ev : Event) (st : Page) : option Page :=
  match ev with
  | EvInput dt v => input_at dt v st
  | EvFire => fire st
  | EvSettle dt s => settle_at dt s st
  end.

Fixpoint run (evs : list Event) (st : Page) : option Page :=
  match evs with
  | [] => Some st
  | ev :: evs' => match step_fn ev st with Some st' => run evs' st' | None => None end
  end.

Inductive step : Page -> Page -> Prop :=
| step_event ev st st' : step_fn ev st = Some st' -> step st st'.

Inductive reachable : Page -> Prop :=
| reach_init input results q : reachable (init input results q)
| reach_step st st' : reachable st -> step st st' -> reachable st'.

(** ** The invariant *)

Definition is_debounced (tm : Timer) : bool :=
  match t_task tm with
  | DebouncedSearch => true
  | UrlSearch _ => false
  end.

(** Timer ids are fresh and distinct, no timer is in the past, and a
    pending debounced callback is the one the closure's [timeout] holds. *)
Record inv (st : Page) : Prop := {
  inv_fresh : Forall (fun tm => t_id tm < next_id st) (timers st);
  inv_nodup : NoDup (map t_id (timers st));
  inv_future : Forall (fun tm => now st <= t_due tm) (timers st);
  inv_debounce : Forall (fun tm => is_debounced tm = true -> debounce_timeout st = Some (t_id tm))
                   (timers st)
}.

Lemma earliest_none ts : earliest ts = None -> ts = [].
Proof.
  destruct ts as [|x ts]; [reflexivity|]. simpl.
  destruct (earliest ts); [destruct (_ <? _)|]; discriminate.
Qed.

Lemma earliest_spec ts tm :
  earliest ts = Some tm -> In tm ts /\ Forall (fun tm' => t_due tm <= t_due tm') ts.
Proof.
  revert tm. induction ts as [|x ts IH]; intros tm H; simpl in H; [discriminate|].
  destruct (earliest ts) as [y|] eqn:Hy.
  - destruct (IH y eq_refl) as [Hin Hall].
    destruct (Nat.ltb_spec (t_due y) (t_due x)); injection H as <-.
    + split; [now right | constructor; [lia | exact Hall]].
    + split; [now left | constructor; [lia|]].
      eapply Forall_impl; [|exact Hall]. simpl. lia.
  - injection H as <-. apply earliest_none in Hy as ->.
    split; [now left | repeat constructor].
Qed.

Lemma earliest_some ts : ts <> [] -> exists tm, earliest ts = Some tm.
Proof.
  destruct ts as [|x ts]; [congruence|]. intros _. simpl.
  destruct (earliest ts); [destruct (_ <? _)|]; eauto.
Qed.

Lemma Forall_filter_sub {A} (P : A -> Prop) f l : Forall P l -> Forall P (filter f l).
Proof. rewrite !Forall_forall. intros H x Hx. apply filter_In in Hx. apply H, Hx. Qed.

Lemma NoDup_map_filter {A B} (g : A -> B) f l : NoDup (map g l) -> NoDup (map g (filter f l)).
Proof.
  induction l as [|x l IH]; simpl; [auto|]. intros H. inversion H; subst.
  destruct (f x); simpl; [constructor|]; auto.
  intros Hin. apply in_map_iff in Hin as (y & Hy & Hyl). apply filter_In in Hyl as [Hyl _].
  apply H2, in_map_iff. eauto.
Qed.

#[local] Hint Resolve Forall_filter_sub NoDup_map_filter : core.

Lemma inv_clear st i : inv st -> inv (clearTimeout i st).
Proof. intros [H1 H2 H3 H4]. constructor; simpl; auto. Qed.

Lemma inv_set_clock st t :
  inv st -> Forall (fun tm => t <= t_due tm) (timers st) -> inv (set_clock st t).
Proof. intros [H1 H2 H3 H4] Ht. constructor; assumption. Qed.

Lemma inv_search_and_render st q : inv st -> inv (search_and_render q st).
Proof.
  intros [H1 H2 H3 H4]. unfold search_and_render.
  destruct (search (index st) q); [destruct (render _ _ _)|]; constructor; assumption.
Qed.

Lemma inv_settle st s : inv st -> inv (settle s st).
Proof. intros [H1 H2 H3 H4]. destruct s; constructor; assumption. Qed.

Lemma inv_set_input st v : inv st -> inv (set_input st v).
Proof. intros [H1 H2 H3 H4]. constructor; assumption. Qed.

(** The debounced handler: the pending debounced timer, if any, is the
    one [clearTimeout] removes, and the new one gets a fresh id. *)
Lemma inv_debounced st : inv st -> inv (debounced st).
Proof.
  intros Hinv. pose proof (inv_clear st (debounce_timeout st) Hinv) as [H1 H2 H3 H4].
  simpl in H1, H2, H3, H4.
  set (kept := filter _ (timers st)) in *.
  assert (Hnone : Forall (fun tm => is_debounced tm = false) kept).
  { apply Forall_forall. intros tm Htm. apply filter_In in Htm as [Htm Hne].
    destruct (is_debounced tm) eqn:Hdb; [|reflexivity].
    destruct Hinv as [_ _ _ Hd]. eapply Forall_forall in Hd; [|exact Htm].
    rewrite (Hd Hdb) in Hne. simpl in Hne. rewrite Nat.eqb_refl in Hne. discriminate. }
  unfold debounced, setTimeout, set_timeout_var. simpl. fold kept.
  constructor; simpl; rewrite ?map_app; simpl.
  - apply Forall_app. split; [|constructor; [simpl; lia | constructor]].
    eapply Forall_impl; [|exact H1]. simpl. lia.
  - apply NoDup_app; [exact H2 | repeat constructor; simpl; tauto |].
    intros x Hx [<-|[]]. apply in_map_iff in Hx as (tm & Heq & Htm).
    eapply Forall_forall in H1; [|exact Htm]. lia.
  - apply Forall_app. split; [exact H3 | constructor; [simpl; lia | constructor]].
  - apply Forall_app. split; [|constructor; [reflexivity | constructor]].
    eapply Forall_impl; [|exact Hnone]. intros tm Htm Hdb. congruence.
Qed.

Lemma none_overdue_spec t st :
  none_overdue t st = true -> Forall (fun tm => t <= t_due tm) (timers st).
Proof.
  unfold none_overdue. intros H. apply Forall_forall. intros tm Htm.
  eapply forallb_forall in H; [|exact Htm]. now apply Nat.leb_le.
Qed.

Lemma inv_step st st' : inv st -> step st st' -> inv st'.
Proof.
  intros Hinv Hstep. inversion Hstep as [ev ? ? Hs]; subst; clear Hstep.
  destruct ev as [dt v| |dt s]; cbn [step_fn] in Hs.
  - unfold input_at in Hs. destruct (none_overdue _ _) eqn:Hno; [|discriminate].
    unfold dispatch_input in Hs. simpl in Hs. destruct (input_value st); [|discriminate].
    injection Hs as <-. apply none_overdue_spec in Hno.
    pose proof (inv_set_clock _ _ Hinv Hno) as Hc.
    destruct (listening st); simpl; [apply inv_debounced|]; apply inv_set_input; exact Hc.
  - unfold fire in Hs. destruct (earliest (timers st)) as [tm|] eqn:He; [|discriminate].
    injection Hs as <-. apply earliest_spec in He as [_ Hmin].
    unfold run_task. apply inv_search_and_render.
    exact (inv_clear _ (Some (t_id tm)) (inv_set_clock _ _ Hinv Hmin)).
  - unfold settle_at in Hs. destruct (fetch_pending st && none_overdue _ _) eqn:Hok; [|discriminate].
    injection Hs as <-. apply andb_true_iff in Hok as [_ Hno]. apply none_overdue_spec in Hno.
    apply inv_settle, inv_set_clock; assumption.
Qed.

Lemma inv_init input results q : inv (init input results q).
Proof.
  unfold init. destruct input, results; try (constructor; simpl; constructor).
  destruct q as [[|c q]|]; constructor; simpl; repeat constructor; simpl; try lia; try tauto; discriminate.
Qed.

Lemma reachable_inv st : reachable st -> inv st.
Proof. induction 1; [apply inv_init | eapply inv_step; eauto]. Qed.

(** ** Properties of every engine *)

Lemma debounced_at_most_one i l :
  NoDup (map t_id l) ->
  Forall (fun tm => is_debounced tm = true -> i = Some (t_id tm)) l ->
  length (filter is_debounced l) <= 1.
Proof.
  induction l as [|x l IH]; simpl; [lia|]. intros Hnd Hall.
  inversion Hnd as [|? ? Hx Hnd']; subst. inversion Hall as [|? ? Hix Hall']; subst.
  destruct (is_debounced x) eqn:Hdx; simpl; [|now apply IH].
  assert (filter is_debounced l = []) as -> ; [|simpl; lia].
  destruct (filter is_debounced l) as [|y ys] eqn:Hf; [reflexivity|]. exfalso.
  assert (Hy : In y (filter is_debounced l)) by (rewrite Hf; now left).
  apply filter_In in Hy as [Hy Hdy]. eapply Forall_forall in Hall'; [|exact Hy].
  specialize (Hall' Hdy). rewrite (Hix eq_refl) in Hall'. injection Hall' as Heq.
  apply Hx, in_map_iff. exists y. split; [symmetry; exact Heq | exact Hy].
Qed.

(** C4: cancellation of superseded scans.  In every reachable state at
    most one debounced search is pending, and it is the timer the
    closure's [timeout] variable holds, so the next input cancels it. *)
Theorem reachable_single_debounce st :
  reachable st ->
  length (filter is_debounced (timers st)) <= 1 /\
  Forall (fun tm => is_debounced tm = true -> debounce_timeout st = Some (t_id tm)) (timers st).
Proof.
  intros H. destruct (reachable_inv st H) as [_ Hnd _ Hdb].
  split; [eapply debounced_at_most_one; eassumption | exact Hdb].
Qed.

(** A page whose [init] found no element, or found both. *)
Record setup_inv (st : Page) : Prop := {
  setup_fetches : fetches st = if listening st then 1 else 0;
  setup_inert : listening st = false ->
    timers st = [] /\ fetch_pending st = false /\ trace st = [] /\ debounce_timeout st = None
}.

Lemma setup_init input results q : setup_inv (init input results q).
Proof.
  unfold init. destruct input, results;
    try (constructor; simpl; [reflexivity | now repeat split]).
  destruct q as [[|c q]|]; constructor; simpl; (reflexivity || discriminate).
Qed.

Ltac setup_close Hf Hin Hl :=
  constructor; simpl; rewrite ?Hl; simpl;
  first [ exact Hf
        | intros Hx; first [discriminate Hx | apply Hin; exact Hx] ].

Lemma setup_step st st' : setup_inv st -> step st st' -> setup_inv st'.
Proof.
  intros [Hf Hin] Hstep. inversion Hstep as [ev ? ? Hs]; subst; clear Hstep.
  destruct ev as [dt v| |dt s]; cbn [step_fn] in Hs.
  - unfold input_at in Hs. destruct (none_overdue _ _); [|discriminate].
    unfold dispatch_input in Hs. simpl in Hs. destruct (input_value st); [|discriminate].
    injection Hs as <-. destruct (listening st) eqn:Hl; setup_close Hf Hin Hl.
  - unfold fire in Hs. destruct (listening st) eqn:Hl.
    + destruct (earliest (timers st)) as [tm|]; [|discriminate]. injection Hs as <-.
      unfold run_task, search_and_render.
      destruct (search _ _); [destruct (render _ _ _)|]; setup_close Hf Hin Hl.
    + destruct (Hin eq_refl) as (Ht & _). rewrite Ht in Hs. discriminate.
  - unfold settle_at in Hs. destruct (listening st) eqn:Hl.
    + destruct (_ && _); [|discriminate]. injection Hs as <-.
      destruct s; setup_close Hf Hin Hl.
    + destruct (Hin eq_refl) as (_ & Hp & _). rewrite Hp in Hs. discriminate.
Qed.

Lemma reachable_setup st : reachable st -> setup_inv st.
Proof. induction 1; [apply setup_init | eapply setup_step; eauto]. Qed.

(** *** Which elements exist *)

Definition present (o : option jsstr) : bool :=
  match o with Some _ => true | None => false end.

(** The listener is installed exactly when both elements exist. *)
Definition elements_ok (st : Page) : Prop :=
  listening st = present (input_value st) && present (results_html st).

Lemma search_and_render_elements q st :
  listening (search_and_render q st) = listening st /\
  input_value (search_and_render q st) = input_value st /\
  present (results_html (search_and_render q st)) = present (results_html st).
Proof.
  unfold search_and_render. destruct (search _ _) as [rs|e]; [|now split_ands].
  destruct (render _ _ _) as [o|e] eqn:Hr; [|now split_ands]. simpl. split_ands; [reflexivity..|].
  apply render_element in Hr. destruct o, (results_html st); try reflexivity; exfalso.
  - now pose proof (proj2 Hr eq_refl).
  - now pose proof (proj1 Hr eq_refl).
Qed.

Lemma elements_init input results q : elements_ok (init input results q).
Proof.
  unfold elements_ok, init. destruct input, results; try reflexivity.
  destruct q as [[|c q]|]; reflexivity.
Qed.

Lemma elements_step st st' : elements_ok st -> step st st' -> elements_ok st'.
Proof.
  unfold elements_ok. intros He Hstep. inversion Hstep as [ev ? ? Hs]; subst; clear Hstep.
  destruct ev as [dt v| |dt s]; cbn [step_fn] in Hs.
  - unfold input_at in Hs. destruct (none_overdue _ _); [|discriminate].
    unfold dispatch_input in Hs. simpl in Hs. destruct (input_value st) eqn:Hi; [|discriminate].
    injection Hs as <-. simpl in He. destruct (listening st) eqn:Hl; simpl; rewrite ?Hl; exact He.
  - unfold fire in Hs. destruct (earliest (timers st)) as [tm|]; [|discriminate]. injection Hs as <-.
    unfold run_task. destruct (search_and_render_elements (task_query (t_task tm) (clearTimeout (Some (t_id tm))
      (set_clock st (t_due tm)))) (clearTimeout (Some (t_id tm)) (set_clock st (t_due tm))))
      as (-> & -> & ->).
    simpl. exact He.
  - unfold settle_at in Hs. destruct (fetch_pending st && _); [|discriminate]. injection Hs as <-.
    destruct s; exact He.
Qed.

Lemma reachable_elements st : reachable st -> elements_ok st.
Proof. induction 1; [apply elements_init | eapply elements_step; eauto]. Qed.

(** C13: [loadSearchIndex] runs at most once, exactly when [init] found
    both elements: on every reachable page the listener is installed iff
    the input and the results element both exist, the index was fetched
    once if so and never otherwise, and a page missing one of them stays
    inert: no timer, no fetch pending, no search, nothing rendered,
    whatever the user does. *)
Theorem reachable_fetch_once st :
  reachable st ->
  fetches st = (if listening st then 1 else 0) /\
  (listening st = true <-> input_value st <> None /\ results_html st <> None) /\
  (listening st = false -> timers st = [] /\ fetch_pending st = false /\ trace st = []).
Proof.
  intros H. destruct (reachable_setup st H) as [Hf Hin]. pose proof (reachable_elements st H) as He.
  split_ands; [exact Hf| |intros Hl; destruct (Hin Hl) as (? & ? & ? & _); auto].
  unfold elements_ok in He. rewrite He. destruct (input_value st), (results_html st); simpl;
    intuition congruence.
Qed.

(** [init] installs the listener exactly when both elements exist. *)
Lemma init_listening input results q :
  listening (init input results q) = true <-> input <> None /\ results <> None.
Proof.
  unfold init. destruct input, results; simpl; try (split; [discriminate | intros [? ?]; congruence]).
  destruct q as [[|c q]|]; simpl; split; auto; intros _; split; discriminate.
Qed.

Lemma filter_remove_one l tm :
  NoDup (map t_id l) -> In tm l ->
  length (filter (fun x => negb (t_id x =? t_id tm)) l) = length l - 1.
Proof.
  induction l as [|x l IH]; simpl; [tauto|]. intros Hnd [<-|Hin];
    inversion Hnd as [|? ? Hx Hnd']; subst.
  - rewrite Nat.eqb_refl. simpl. rewrite Nat.sub_0_r.
    erewrite filter_ext_in, filter_true; [reflexivity|]. intros y Hy. simpl.
    destruct (Nat.eqb_spec (t_id y) (t_id x)) as [Heq|]; [|reflexivity].
    exfalso. apply Hx, in_map_iff. eauto.
  - simpl. destruct (Nat.eqb_spec (t_id x) (t_id tm)) as [Heq|Hneq].
    + exfalso. apply Hx, in_map_iff. eauto.
    + simpl. rewrite IH by assumption. destruct l; [contradiction | simpl; lia].
Qed.

Lemma timers_search_and_render q st : timers (search_and_render q st) = timers st.
Proof. unfold search_and_render. destruct (search _ _); [destruct (render _ _ _)|]; reflexivity. Qed.

Lemma fire_one st :
  inv st -> timers st <> [] ->
  exists st', fire st = Some st' /\ length (timers st') = length (timers st) - 1.
Proof.
  intros Hinv Hne. destruct (earliest_some _ Hne) as (tm & He).
  unfold fire. rewrite He. eexists; split; [reflexivity|].
  unfold run_task. rewrite timers_search_and_render. simpl.
  apply earliest_spec in He as [Hin _]. apply filter_remove_one; [apply Hinv | exact Hin].
Qed.

(** C14: the event loop drains: from any reachable state, every pending
    timer runs, one per turn of the loop, and none is left after as many
    turns as there were timers (no task schedules another). *)
Theorem reachable_timers_drain st :
  reachable st ->
  exists st', run (repeat EvFire (length (timers st))) st = Some st' /\ timers st' = [].
Proof.
  intros H. remember (length (timers st)) as n eqn:Hn. revert st H Hn.
  induction n as [|n IH]; intros st H Hn.
  - exists st. split; [reflexivity|]. now destruct (timers st).
  - destruct (fire_one st) as (st1 & Hf & Hl); [now apply reachable_inv | now destruct (timers st)|].
    assert (H1 : reachable st1) by (eapply reach_step; [exact H | apply (step_event EvFire); exact Hf]).
    destruct (IH st1 H1) as (st' & Hrun & Hnil); [lia|].
    exists st'. simpl. rewrite Hf. split; assumption.
Qed.

(** ** Debouncing a burst of input *)

Lemma run_app evs1 evs2 st :
  run (evs1 ++ evs2) st = match run evs1 st with Some st' => run evs2 st' | None => None end.
Proof.
  revert st. induction evs1 as [|ev evs1 IH]; intros st; simpl; [reflexivity|].
  destruct (step_fn ev st); [apply IH | reflexivity].
Qed.

(** A debounced search for [v] is the only pending timer, due a full
    wait after the last input. *)
Definition armed (v : jsstr) (st : Page) : Prop :=
  listening st = true /\ input_value st = Some v /\
  exists id, timers st = [mkTimer id (now st + debounce_wait) DebouncedSearch] /\
             debounce_timeout st = Some id.

Lemma first_input st v dt :
  listening st = true -> input_value st <> None -> timers st = [] ->
  exists st', input_at dt v st = Some st' /\ armed v st' /\ trace st' = trace st.
Proof.
  intros Hl Hi Ht. unfold input_at, none_overdue. rewrite Ht. simpl.
  unfold dispatch_input. simpl. destruct (input_value st) as [w|]; [|congruence].
  rewrite Hl. eexists; split; [reflexivity|]. split; [|reflexivity].
  unfold debounced, setTimeout, set_timeout_var, armed. simpl. rewrite Hl, Ht.
  split; [reflexivity | split; [reflexivity|]]. eexists; split; reflexivity.
Qed.

Lemma armed_input st v v' dt :
  armed v st -> dt <= debounce_wait ->
  exists st', input_at dt v' st = Some st' /\ armed v' st' /\ trace st' = trace st.
Proof.
  intros (Hl & Hi & id & Ht & Hd) Hdt. unfold input_at, none_overdue. rewrite Ht. simpl.
  replace (now st + dt <=? now st + debounce_wait) with true by (symmetry; apply Nat.leb_le; lia).
  unfold dispatch_input. simpl. rewrite Hi, Hl. eexists; split; [reflexivity|]. split; [|reflexivity].
  unfold debounced, setTimeout, set_timeout_var, armed. simpl. rewrite Hl, Ht, Hd. simpl.
  rewrite Nat.eqb_refl. simpl.
  split; [reflexivity | split; [reflexivity|]]. eexists; split; reflexivity.
Qed.

Lemma armed_fire st v :
  armed v st ->
  exists st' o, fire st = Some st' /\ timers st' = [] /\ input_value st' = Some v /\
    trace st' = trace st ++ [Scanned (trim v); o].
Proof.
  intros (Hl & Hi & id & Ht & Hd). unfold fire. rewrite Ht. simpl.
  unfold run_task, task_query. simpl. rewrite Hi.
  unfold search_and_render. simpl.
  destruct (search (index st) (trim v)) as [rs|e];
    [destruct (render (results_html st) rs (trim v)) as [el|e]|];
    do 2 eexists; (split; [reflexivity|]); simpl; rewrite ?Ht; simpl; rewrite ?Nat.eqb_refl;
    (split; [reflexivity | split; [exact Hi | reflexivity]]).
Qed.

Definition input_events (l : list (nat * jsstr)) : list Event :=
  map (fun dv => EvInput (fst dv) (snd dv)) l.

Lemma burst_armed st v rest :
  armed v st -> Forall (fun dv => fst dv < debounce_wait) rest ->
  exists st', run (input_events rest) st = Some st' /\
    armed (snd (last rest (0, v))) st' /\ trace st' = trace st.
Proof.
  revert st v. induction rest as [|[d w] rest IH]; intros st v Ha Hrest; simpl.
  - now exists st.
  - inversion Hrest as [|? ? Hd Hrest']; subst. simpl in Hd.
    destruct (armed_input st v w d Ha) as (st1 & Hs1 & Ha1 & Htr1); [lia|].
    rewrite Hs1. destruct (IH st1 w Ha1 Hrest') as (st' & Hrun & Ha' & Htr').
    exists st'. split; [exact Hrun|]. split; [|congruence].
    destruct rest as [|dv rest]; [exact Ha'|].
    now rewrite (last_default dv rest (0, w) (0, v)) in Ha'.
Qed.

(** C3: debouncing.  On a page whose listener is installed and with no
    timer pending, a burst of input events (the first after any delay,
    each next one less than 300 time units after the previous) followed
    by the quiet period produces exactly one search, with the trimmed
    value of the last input, and leaves no timer behind: the
    intermediate values are never searched. *)
Theorem debounce_burst st d0 v0 rest :
  listening st = true -> input_value st <> None -> timers st = [] ->
  Forall (fun dv => fst dv < debounce_wait) rest ->
  let v := snd (last ((d0, v0) :: rest) (d0, v0)) in
  exists st' o, run (input_events ((d0, v0) :: rest) ++ [EvFire]) st = Some st' /\
    timers st' = [] /\ input_value st' = Some v /\
    trace st' = trace st ++ [Scanned (trim v); o].
Proof.
  intros Hl Hi Ht Hrest v. rewrite run_app. simpl.
  destruct (first_input st v0 d0 Hl Hi Ht) as (st1 & Hs1 & Ha1 & Htr1). rewrite Hs1.
  destruct (burst_armed st1 v0 rest Ha1 Hrest) as (st2 & Hrun & Ha2 & Htr2). rewrite Hrun.
  assert (Hv : snd (last rest (0, v0)) = v).
  { unfold v. clear. destruct rest as [|dv rest]; [reflexivity|].
    change (last ((d0, v0) :: dv :: rest) (d0, v0)) with (last (dv :: rest) (d0, v0)).
    now rewrite (last_default dv rest (0, v0) (d0, v0)). }
  rewrite Hv in Ha2. destruct (armed_fire st2 v Ha2) as (st3 & o & Hf & Ht3 & Hi3 & Htr3).
  exists st3, o. simpl. rewrite Hf. split; [reflexivity|]. split; [exact Ht3|].
  split; [exact Hi3|]. congruence.
Qed.

(** C18: the typed path never searches an empty term: the debounced
    callback trims the input value, so every term of a query that passes
    the length guard is non-empty (contrast with the URL path and
    [Scorer.performSearch_leading_ws]). *)
Theorem debounced_query_terms st :
  2 <= length (task_query DebouncedSearch st) ->
  Forall (fun w => w <> []) (split_ws (toLowerCase (task_query DebouncedSearch st))).
Proof.
  simpl. set (x := match input_value st with Some v => v | None => [] end). intros Hlen.
  rewrite split_ws_lower, Forall_map.
  eapply Forall_impl; [|apply split_ws_trimmed_nonempty; auto with js].
  - intros w Hw Hl. apply Hw. now destruct w.
  - intros He. rewrite He in Hlen. simpl in Hlen. lia.
Qed.

(** *** The [timeout] variable names only a debounced timer *)

Definition timeout_debounced (st : Page) : Prop :=
  forall n, debounce_timeout st = Some n ->
    Forall (fun tm => t_id tm = n -> is_debounced tm = true) (timers st).

Lemma timeout_search_and_render q st :
  debounce_timeout (search_and_render q st) = debounce_timeout st.
Proof. unfold search_and_render. destruct (search _ _); [destruct (render _ _ _)|]; reflexivity. Qed.

Lemma timeout_debounced_sub st st' :
  debounce_timeout st' = debounce_timeout st -> incl (timers st') (timers st) ->
  timeout_debounced st -> timeout_debounced st'.
Proof.
  intros Ht Hi H n Hn. rewrite Ht in Hn. apply Forall_forall. intros tm Htm.
  exact (proj1 (Forall_forall _ _) (H n Hn) tm (Hi tm Htm)).
Qed.

Lemma timeout_debounced_init input results q : timeout_debounced (init input results q).
Proof.
  intros n. unfold init. destruct input, results; simpl; try discriminate.
  destruct q as [[|c q]|]; simpl; discriminate.
Qed.

Lemma timeout_debounced_step st st' :
  inv st -> timeout_debounced st -> step st st' -> timeout_debounced st'.
Proof.
  intros Hinv Htd Hstep. inversion Hstep as [ev ? ? Hs]; subst; clear Hstep.
  destruct ev as [dt v| |dt s]; cbn [step_fn] in Hs.
  - unfold input_at in Hs. destruct (none_overdue _ _); [|discriminate].
    unfold dispatch_input in Hs. simpl in Hs. destruct (input_value st); [|discriminate].
    injection Hs as <-. destruct (listening st).
    + intros n Hn. simpl in Hn |- *. injection Hn as <-. apply Forall_app. split.
      * apply Forall_forall. intros tm Htm Hid. apply filter_In in Htm as [Htm _].
        pose proof (proj1 (Forall_forall _ _) (inv_fresh _ Hinv) tm Htm). simpl in *. lia.
      * constructor; [reflexivity | constructor].
    + exact Htd.
  - unfold fire in Hs. destruct (earliest (timers st)) as [tm|]; [|discriminate]. injection Hs as <-.
    unfold run_task. apply (timeout_debounced_sub st); [now rewrite timeout_search_and_render| |exact Htd].
    rewrite timers_search_and_render. intros x Hx. simpl in Hx. now apply filter_In in Hx.
  - unfold settle_at in Hs. destruct (fetch_pending st && _); [|discriminate]. injection Hs as <-.
    destruct s; exact Htd.
Qed.

Lemma reachable_timeout_debounced st : reachable st -> timeout_debounced st.
Proof.
  intros H. induction H as [|st st' Hr IH Hs]; [apply timeout_debounced_init|].
  exact (timeout_debounced_step st st' (reachable_inv st Hr) IH Hs).
Qed.

(** C22: the URL-parameter search ignores typing.  On every reachable
    page an input event never cancels the pending URL-parameter timer
    (its [clearTimeout] only names the debounced callback), and when that
    timer fires it searches and renders [q] whatever the input holds: the
    results it writes and the trace are those of the page before the
    user typed.  So a typed search rendered before it is overwritten by
    the results for [q], while the input still shows the typed text. *)
Theorem url_search_overwrites_typed st tm q :
  reachable st -> In tm (timers st) -> t_task tm = UrlSearch q ->
  (forall dt v st', step_fn (EvInput dt v) st = Some st' -> In tm (timers st')) /\
  (earliest (timers st) = Some tm -> forall v,
     option_map (fun s => (results_html s, trace s)) (fire (set_input st v)) =
     option_map (fun s => (results_html s, trace s)) (fire st)).
Proof.
  intros Hr Hin Htask. split.
  - intros dt v st' Hs. cbn [step_fn] in Hs. unfold input_at in Hs.
    destruct (none_overdue _ _); [|discriminate].
    unfold dispatch_input in Hs. simpl in Hs. destruct (input_value st); [|discriminate].
    injection Hs as <-. destruct (listening st); [|exact Hin].
    simpl. apply in_or_app. left. apply filter_In. split; [exact Hin|].
    destruct (debounce_timeout st) as [n|] eqn:Hn; [|reflexivity]. simpl.
    pose proof (proj1 (Forall_forall _ _) (reachable_timeout_debounced st Hr n Hn) tm Hin) as Hd.
    unfold is_debounced in Hd. rewrite Htask in Hd.
    destruct (Nat.eqb_spec (t_id tm) n); [discriminate (Hd e) | reflexivity].
  - intros He v. unfold fire. simpl. rewrite He. unfold run_task. rewrite Htask. simpl.
    unfold search_and_render. simpl.
    destruct (search (index st) q) as [rs|e]; [destruct (render (results_html st) rs q)|]; reflexivity.
Qed.

(** C23: loading the index never runs a search: from a page with no
    timer pending, events other than input (the fetch settling, or a
    timer event that cannot fire) leave the rendered results as they
    are, schedule nothing, and add nothing to the trace but the load
    errors.  A URL search that ran on the empty index before the load is
    not re-run when the index arrives; only typing searches again. *)
Theorem url_search_before_load st evs st' :
  Forall (fun ev => match ev with EvInput _ _ => False | _ => True end) evs ->
  timers st = [] -> run evs st = Some st' ->
  results_html st' = results_html st /\ timers st' = [] /\
  exists errs, trace st' = trace st ++ map LoadError errs.
Proof.
  revert st. induction evs as [|ev evs IH]; intros st Hevs Ht Hrun; simpl in Hrun.
  - injection Hrun as <-. split_ands; [reflexivity | exact Ht|]. exists []. now rewrite app_nil_r.
  - inversion Hevs as [|? ? Hev Hrest]; subst. destruct ev as [dt v| |dt s]; [contradiction| |].
    + cbn [step_fn] in Hrun. unfold fire in Hrun. rewrite Ht in Hrun. discriminate.
    + cbn [step_fn] in Hrun. unfold settle_at in Hrun.
      destruct (fetch_pending st && _); [|discriminate].
      assert (Hts : timers (settle s (set_clock st (now st + dt))) = []) by (destruct s; exact Ht).
      destruct (IH _ Hrest Hts Hrun) as (Hres & Ht' & errs & Htr).
      split_ands; [rewrite Hres; now destruct s | exact Ht'|].
      destruct s as [v|e]; simpl in Htr.
      * exists errs. exact Htr.
      * exists (e :: errs). rewrite Htr. now rewrite <- app_assoc.
Qed.

End WithEngine.

(** ** The site: [performSearch] and [renderResults] behind the interface *)

#[export] Instance site_engine : SearchEngine := {|
  Index := Scorer.index_value;
  Results := list Scorer.Scored;
  initial_index := Scorer.IdxArray [];
  search := Scorer.performSearch;
  render := Renderer.renderResults;
  render_element := Renderer.renderResults_element
|}.

(** How [fetch('/search.json')] and [response.json()] end. *)
Inductive fetch_outcome : Type :=
| FetchRejected                          (** network failure: [fetch] rejects *)
| BodyNotJson                            (** [response.json()] rejects *)
| BodyJson (v : Scorer.index_value).     (** the parsed body *)

(** [loadSearchIndex] (lines 8-15): the parsed body becomes
    [searchIndex]; a rejection reaches the [catch]. *)
Definition loadSearchIndex (o : fetch_outcome) : settlement :=
  match o with
  | FetchRejected => LoadFailed TypeError
  | BodyNotJson => LoadFailed SyntaxError
  | BodyJson v => Loaded v
  end.

Definition site_index : Scorer.index_value :=
  Scorer.IdxArray [Scorer.lines_post; Scorer.intro_post; Scorer.rust_a].

(** A page opened with [?q=cache]. *)
Definition url_page : Page := init (Some []) (Some []) (Some (js "cache")).

(** ** Witnesses *)

Definition typing_page : Page := init (Some []) (Some []) None.

Lemma reachable_single_debounce_witness :
  length (filter is_debounced (timers typing_page)) <= 1 /\
  Forall (fun tm => is_debounced tm = true -> debounce_timeout typing_page = Some (t_id tm))
    (timers typing_page).
Proof. apply reachable_single_debounce, reach_init. Defined.

Lemma reachable_fetch_once_witness :
  fetches typing_page = (if listening typing_page then 1 else 0) /\
  (listening typing_page = true <-> input_value typing_page <> None /\ results_html typing_page <> None) /\
  (listening typing_page = false ->
   timers typing_page = [] /\ fetch_pending typing_page = false /\ trace typing_page = []).
Proof. apply reachable_fetch_once, reach_init. Defined.

Lemma reachable_timers_drain_witness :
  exists st', run (repeat EvFire (length (timers url_page))) url_page = Some st' /\ timers st' = [].
Proof. apply reachable_timers_drain, reach_init. Defined.

(** Three inputs 50, 100 and 120 time units apart: one search, for "cache". *)
Lemma debounce_burst_witness :
  exists st' o,
    run (input_events [(50, js "c"); (100, js "ca"); (120, js "cache")] ++ [EvFire]) typing_page
      = Some st' /\
    timers st' = [] /\ input_value st' = Some (js "cache") /\
    trace st' = trace typing_page ++ [Scanned (trim (js "cache")); o].
Proof.
  apply (debounce_burst typing_page 50 (js "c") [(100, js "ca"); (120, js "cache")]).
  - reflexivity.
  - discriminate.
  - reflexivity.
  - repeat constructor; simpl; unfold debounce_wait; lia.
Defined.

Lemma debounced_query_terms_witness :
  Forall (fun w => w <> []) (split_ws (toLowerCase (task_query DebouncedSearch
    (set_input typing_page (js "  cache  lines "))))).
Proof. apply debounced_query_terms. vm_compute. lia. Defined.

(** Typing "rust" 100 units after opening [?q=cache] keeps the URL
    timer, and what that timer renders does not depend on the input. *)
Lemma url_search_overwrites_typed_witness :
  (forall dt v st', step_fn (EvInput dt v) url_page = Some st' ->
     In (mkTimer 0 500 (UrlSearch (js "cache"))) (timers st')) /\
  (earliest (timers url_page) = Some (mkTimer 0 500 (UrlSearch (js "cache"))) -> forall v,
     option_map (fun s => (results_html s, trace s)) (fire (set_input url_page v)) =
     option_map (fun s => (results_html s, trace s)) (fire url_page)).
Proof.
  apply (url_search_overwrites_typed url_page _ (js "cache"));
    [apply reach_init | vm_compute; now left | reflexivity].
Defined.

(** The URL search fired at 500 on the empty index, then the index
    arrives: the page keeps "No results found". *)
Definition url_fired : Page :=
  match run [EvFire] url_page with Some st => st | None => url_page end.

Definition url_loaded : Page :=
  match run [EvSettle 10 (loadSearchIndex (BodyJson site_index))] url_fired with
  | Some st => st | None => url_fired end.

Lemma url_search_before_load_witness :
  results_html url_loaded = results_html url_fired /\ timers url_loaded = [] /\
  exists errs, trace url_loaded = trace url_fired ++ map LoadError errs.
Proof.
  apply (url_search_before_load url_fired [EvSettle 10 (loadSearchIndex (BodyJson site_index))]).
  - repeat constructor.
  - vm_compute. reflexivity.
  - assert (Hs : match run [EvSettle 10 (loadSearchIndex (BodyJson site_index))] url_fired with
                  | Some _ => true | None => false end = true)
      by (vm_compute; reflexivity).
    unfold url_loaded. destruct (run _ url_fired); [reflexivity | discriminate].
Defined.

End Controller.
