(* ===== verification/CodeCopy.v ===== *)
(** * The copy button: [src/assets/js/code-copy.js]

    [addCopyButtons] (lines 5-45) walks the [div.highlighter-rouge]
    blocks in document order; a block that already holds a
    [.copy-button] is skipped, every other one gets a button labelled
    "Copy" and [position: relative].  A click writes the [textContent]
    of the block's [code] element (or the empty string) to the
    clipboard; when the promise resolves the label becomes "Copied!"
    with the class [copied], when it rejects the error is logged and the
    label becomes "Failed"; either way a 2000 time-unit timer puts the
    label back to "Copy" (and, after a success, removes [copied]).

    The blocks are the [NodeList], a list updated by index with stdpp's
    [!!] and [<[_:=_]>]; the outstanding [writeText] promises and the
    reset timers are lists; events are clicks, settlements of a pending
    promise (in any order) and timers firing, with the clock advancing as
    in [Controller]. *)

From Stdlib Require Import Ascii String.
From stdpp Require Import base list.
From S2P Require Import Prelude JsString.

Module CodeCopy.

(** ** Data *)

(** The button this script creates: its [textContent] and whether its
    [classList] holds [copied]. *)
Record Button := mkButton { label : jsstr; copied : bool }.

Record Block := mkBlock {
  code_text : option jsstr;    (** [textContent] of [block.querySelector('code')] *)
  preexisting : bool;          (** the block already held a [.copy-button] *)
  button : option Button;      (** the button appended by [addCopyButtons] *)
  positioned : bool            (** [block.style.position = 'relative'] *)
}.

Inductive ResetKind : Type :=
| AfterCopy     (** the timer of line 27 *)
| AfterFail.    (** the timer of line 35 *)

Record ResetTimer := mkReset { r_due : nat; r_block : nat; r_kind : ResetKind }.

(** A pending [navigator.clipboard.writeText(text)] from the button of
    block [w_block]. *)
Record Write := mkWrite { w_block : nat; w_text : jsstr }.

Record Doc := mkDoc {
  blocks : list Block;
  clipboard : list jsstr;     (** the texts written, oldest first *)
  writes : list Write;        (** pending promises, in call order *)
  resets : list ResetTimer;
  clock : nat;
  errors : nat                (** [console.error] calls *)
}.

Definition label_copy : jsstr := js "Copy".
Definition label_copied : jsstr := js "Copied!".
Definition label_failed : jsstr := js "Failed".
Definition reset_delay : nat := 2000.

(** ** [addCopyButtons] *)

(** [block.querySelector('.copy-button')] finds a button. *)
Definition has_copy_button (b : Block) : bool :=
  preexisting b || bool_decide (is_Some (button b)).

(** The body of [codeBlocks.forEach(function(block) {...})]. *)
Definition add_button (b : Block) : Block :=
  if has_copy_button b then b
  else mkBlock (code_text b) (preexisting b) (Some (mkButton label_copy false)) true.

Definition addCopyButtons (d : Doc) : Doc :=
  mkDoc (map add_button (blocks d)) (clipboard d) (writes d) (resets d) (clock d) (errors d).

(** ** The click handler and its continuations *)

(** [const text = code ? code.textContent : '']. *)
Definition copy_text (b : Block) : jsstr :=
  match code_text b with
  | Some t => t
  | None => []
  end.

(** A click on the button of block [i] calls [writeText]. *)
Definition click (i : nat) (d : Doc) : option Doc :=
  match blocks d !! i with
  | Some b =>
      match button b with
      | Some _ => Some (mkDoc (blocks d) (clipboard d) (writes d ++ [mkWrite i (copy_text b)])
                              (resets d) (clock d) (errors d))
      | None => None
      end
  | None => None
  end.

Definition set_button (i : nat) (f : Button -> Button) (bs : list Block) : list Block :=
  match bs !! i with
  | Some b =>
      match button b with
      | Some bt => <[i := mkBlock (code_text b) (preexisting b) (Some (f bt)) (positioned b)]> bs
      | None => bs
      end
  | None => bs
  end.

(** [.then]: label "Copied!", class [copied], reset timer. *)
Definition on_copied (bt : Button) : Button := mkButton label_copied true.
(** [.catch]: label "Failed", reset timer. *)
Definition on_failed (bt : Button) : Button := mkButton label_failed (copied bt).
(** The callback of line 27. *)
Definition reset_copy (bt : Button) : Button := mkButton label_copy false.
(** The callback of line 35. *)
Definition reset_fail (bt : Button) : Button := mkButton label_copy (copied bt).

(** The pending write number [k] settles, successfully or not. *)
Definition settle_write (k : nat) (ok : bool) (d : Doc) : option Doc :=
  match writes d !! k with
  | None => None
  | Some w =>
      let ws := delete k (writes d) in
      let i := w_block w in
      if ok then
        Some (mkDoc (set_button i on_copied (blocks d)) (clipboard d ++ [w_text w]) ws
                    (resets d ++ [mkReset (clock d + reset_delay) i AfterCopy]) (clock d) (errors d))
      else
        Some (mkDoc (set_button i on_failed (blocks d)) (clipboard d) ws
                    (resets d ++ [mkReset (clock d + reset_delay) i AfterFail]) (clock d) (S (errors d)))
  end.

(** ** Time *)

Fixpoint earliest_reset (ts : list ResetTimer) : option nat :=
  match ts with
  | [] => None
  | t :: ts' =>
      match earliest_reset ts' with
      | Some k => match ts' !! k with
                  | Some t' => if r_due t' <? r_due t then Some (S k) else Some 0
                  | None => Some 0
                  end
      | None => Some 0
      end
  end.

(** The event loop runs the earliest reset timer. *)
Definition fire_reset (d : Doc) : option Doc :=
  match earliest_reset (resets d) with
  | None => None
  | Some k =>
      match resets d !! k with
      | None => None
      | Some t =>
          let f := match r_kind t with AfterCopy => reset_copy | AfterFail => reset_fail end in
          Some (mkDoc (set_button (r_block t) f (blocks d)) (clipboard d) (writes d)
                      (delete k (resets d)) (r_due t) (errors d))
      end
  end.

Definition none_overdue (t : nat) (d : Doc) : bool :=
  forallb (fun r => t <=? r_due r) (resets d).

Definition advance (dt : nat) (d : Doc) : option Doc :=
  if none_overdue (clock d + dt) d
  then Some (mkDoc (blocks d) (clipboard d) (writes d) (resets d) (clock d + dt) (errors d))
  else None.

Inductive Event : Type :=
| EvClick (dt i : nat)
| EvSettle (dt k : nat) (ok : bool)
| EvReset.

Definition step_fn (ev : Event) (d : Doc) : option Doc :=
  match ev with
  | EvClick dt i => advance dt d ≫= click i
  | EvSettle dt k ok => advance dt d ≫= settle_write k ok
  | EvReset => fire_reset d
  end.

Fixpoint run (evs : list Event) (d : Doc) : option Doc :=
  match evs with
  | [] => Some d
  | ev :: evs' => step_fn ev d ≫= run evs'
  end.

(** A page as it is loaded: code blocks, no button of ours yet. *)
Definition fresh (d : Doc) : Prop :=
  Forall (fun b => button b = None) (blocks d) /\ writes d = [] /\ resets d = [].

Inductive reachable : Doc -> Prop :=
| reach_load d : fresh d -> reachable (addCopyButtons d)
| reach_step ev d d' : reachable d -> step_fn ev d = Some d' -> reachable d'.

(** ** Lemmas on the operations *)

Lemma has_copy_button_add b : has_copy_button (add_button b) = true.
Proof.
  unfold add_button. destruct (has_copy_button b) eqn:H; [exact H|].
  unfold has_copy_button. simpl. apply orb_true_r.
Qed.

Lemma add_button_idem b : add_button (add_button b) = add_button b.
Proof. unfold add_button at 1. now rewrite has_copy_button_add. Qed.

Lemma set_button_same i f bs b bt :
  bs !! i = Some b -> button b = Some bt ->
  set_button i f bs !! i = Some (mkBlock (code_text b) (preexisting b) (Some (f bt)) (positioned b)).
Proof.
  intros Hb Hbt. unfold set_button. rewrite Hb, Hbt.
  apply list_lookup_insert_eq. eapply lookup_lt_Some; eauto.
Qed.

Lemma set_button_other i j f bs : i <> j -> set_button i f bs !! j = bs !! j.
Proof.
  intros Hij. unfold set_button.
  destruct (bs !! i) as [b|]; [|reflexivity]. destruct (button b); [|reflexivity].
  now apply list_lookup_insert_ne.
Qed.

Lemma set_button_none i f bs : bs !! i = None -> set_button i f bs = bs.
Proof. intros H. unfold set_button. now rewrite H. Qed.

Lemma set_button_nobutton i f bs b : bs !! i = Some b -> button b = None -> set_button i f bs = bs.
Proof. intros H Hb. unfold set_button. now rewrite H, Hb. Qed.

(** What a block read after [set_button i f] holds. *)
Lemma set_button_lookup_inv i j f bs b bt :
  set_button i f bs !! j = Some b -> button b = Some bt ->
  (i = j /\ exists b0 bt0, bs !! i = Some b0 /\ button b0 = Some bt0 /\ bt = f bt0) \/
  (i <> j /\ bs !! j = Some b).
Proof.
  intros Hj Hbt. destruct (decide (i = j)) as [<-|Hne]; [left|right; now rewrite set_button_other in Hj].
  split; [reflexivity|]. destruct (bs !! i) as [b0|] eqn:Hb0.
  - destruct (button b0) as [bt0|] eqn:Hbt0.
    + rewrite (set_button_same _ _ _ _ _ Hb0 Hbt0) in Hj. injection Hj as <-. simpl in Hbt.
      injection Hbt as <-. eauto.
    + rewrite (set_button_nobutton _ _ _ _ Hb0 Hbt0), Hb0 in Hj. congruence.
  - rewrite set_button_none, Hb0 in Hj by exact Hb0. discriminate.
Qed.

(** An element of a list other than the one at index [k] survives
    [delete k]. *)
Lemma elem_of_delete_other {A} (l : list A) k t r :
  r ∈ l -> l !! k = Some t -> t <> r -> r ∈ delete k l.
Proof.
  intros Hr Hk Htr. rewrite delete_take_drop.
  apply list_elem_of_lookup in Hr as (j & Hj).
  destruct (decide (j < k)) as [Hlt|Hge].
  - apply elem_of_app; left. apply list_elem_of_lookup. exists j. rewrite lookup_take_lt; auto.
  - assert (j <> k) by (intros ->; congruence).
    apply elem_of_app; right. apply list_elem_of_lookup. exists (j - S k).
    rewrite lookup_drop. replace (S k + (j - S k)) with j by lia. exact Hj.
Qed.

Lemma earliest_reset_spec ts k :
  earliest_reset ts = Some k -> exists t, ts !! k = Some t /\ Forall (fun r => r_due t <= r_due r) ts.
Proof.
  revert k. induction ts as [|x ts IH]; intros k H; simpl in H; [discriminate|].
  destruct (earliest_reset ts) as [k'|] eqn:Hk'.
  - destruct (IH k' eq_refl) as (t' & Ht' & Hall). rewrite Ht' in H.
    destruct (Nat.ltb_spec (r_due t') (r_due x)); injection H as <-.
    + exists t'. split; [exact Ht' | constructor; [lia | exact Hall]].
    + exists x. split; [reflexivity | constructor; [lia|]].
      eapply Forall_impl; [exact Hall | simpl; lia].
  - injection H as <-. exists x. split; [reflexivity|].
    destruct ts as [|y ts]; [repeat constructor|]. simpl in Hk'.
    destruct (earliest_reset ts) as [j|]; [destruct (ts !! j); [destruct (_ <? _)|]|]; discriminate.
Qed.

Lemma earliest_reset_some ts : ts <> [] -> exists k, earliest_reset ts = Some k.
Proof.
  destruct ts as [|x ts]; [congruence|]. intros _. simpl.
  destruct (earliest_reset ts) as [k|]; [destruct (ts !! k); [destruct (_ <? _)|]|]; eauto.
Qed.

(** ** The invariant *)

(** The labels the script writes. *)
Definition known_label (l : jsstr) : Prop := l = label_copy \/ l = label_copied \/ l = label_failed.

(** Every button shows one of the three labels; one that does not read
    "Copy" has a reset timer pending for its block, and one with the
    class [copied] has a pending reset of the success kind; no reset
    timer is in the past. *)
Record inv (d : Doc) : Prop := {
  inv_buttons : forall i b bt, blocks d !! i = Some b -> button b = Some bt ->
    known_label (label bt) /\
    (label bt <> label_copy -> exists r, r ∈ resets d /\ r_block r = i) /\
    (copied bt = true -> exists r, r ∈ resets d /\ r_block r = i /\ r_kind r = AfterCopy);
  inv_future : Forall (fun r => clock d <= r_due r) (resets d)
}.

Lemma inv_load d : fresh d -> inv (addCopyButtons d).
Proof.
  intros (Hb & _ & Hr). constructor; simpl; [|rewrite Hr; constructor].
  intros i b bt Hi Hbt. rewrite list_lookup_fmap in Hi.
  destruct (blocks d !! i) as [b0|] eqn:H0; [|discriminate]. injection Hi as <-.
  assert (button b0 = None) by exact (Forall_lookup_1 (fun b => button b = None) _ _ _ Hb H0).
  unfold add_button, has_copy_button in Hbt. destruct (preexisting b0); simpl in Hbt; [congruence|].
  rewrite H, bool_decide_false in Hbt by (intros [? ?]; discriminate). simpl in Hbt.
  injection Hbt as <-. simpl. split; [now left|]. split; [tauto | discriminate].
Qed.

Lemma inv_advance d d' dt : inv d -> advance dt d = Some d' -> inv d'.
Proof.
  intros [Hb Hf] H. unfold advance in H. destruct (none_overdue _ _) eqn:Hno; [|discriminate].
  injection H as <-. constructor; simpl; [exact Hb|].
  apply Forall_forall. intros r Hr. unfold none_overdue in Hno.
  apply list_elem_of_In in Hr. eapply forallb_forall in Hno; [|exact Hr]. now apply Nat.leb_le in Hno.
Qed.

Lemma inv_click d d' i : inv d -> click i d = Some d' -> inv d'.
Proof.
  intros [Hb Hf] H. unfold click in H.
  destruct (blocks d !! i) as [b|]; [|discriminate]. destruct (button b); [|discriminate].
  injection H as <-. now constructor.
Qed.

(** Labels of a settled write: the block written to gets a fresh timer
    of the matching kind. *)
Lemma inv_settle_write d d' k ok : inv d -> settle_write k ok d = Some d' -> inv d'.
Proof.
  intros [Hb Hf] H. unfold settle_write in H. destruct (writes d !! k) as [w|]; [|discriminate].
  assert (Hnew : forall kind, Forall (fun r => clock d <= r_due r)
                    (resets d ++ [mkReset (clock d + reset_delay) (w_block w) kind])).
  { intros kind. apply Forall_app. split; [exact Hf|]. constructor; [simpl; lia | constructor]. }
  assert (Hold : forall (j : nat) b bt (r' : ResetTimer), blocks d !! j = Some b -> button b = Some bt ->
            known_label (label bt) /\
            (label bt <> label_copy -> exists r, r ∈ resets d ++ [r'] /\ r_block r = j) /\
            (copied bt = true -> exists r, r ∈ resets d ++ [r'] /\ r_block r = j /\ r_kind r = AfterCopy)).
  { intros j b bt r' Hj Hbt. destruct (Hb _ _ _ Hj Hbt) as (Hk & Hl & Hc).
    split; [exact Hk|]. setoid_rewrite elem_of_app.
    split; [intros Hn; destruct (Hl Hn) as (r & ? & ?) | intros Hn; destruct (Hc Hn) as (r & ? & ? & ?)];
      exists r; tauto. }
  destruct ok; injection H as <-; (constructor; simpl; [|apply Hnew]);
    intros j b bt Hj Hbt;
    (destruct (set_button_lookup_inv _ _ _ _ _ _ Hj Hbt) as [(<- & b0 & bt0 & Hb0 & Hbt0 & ->)|(_ & Hj')];
     [|exact (Hold _ _ _ _ Hj' Hbt)]).
  all: split; [unfold known_label; simpl; tauto|].
  all: setoid_rewrite elem_of_app; setoid_rewrite list_elem_of_singleton; simpl.
  - split; intros _; eexists; split; [right; reflexivity | simpl; eauto | right; reflexivity | simpl; eauto].
  - split; [intros _; eexists; split; [right; reflexivity | reflexivity]|].
    intros Hn. destruct (Hb _ _ _ Hb0 Hbt0) as (_ & _ & Hc). destruct (Hc Hn) as (r & ? & ? & ?).
    exists r. tauto.
Qed.

Lemma inv_fire d d' : inv d -> fire_reset d = Some d' -> inv d'.
Proof.
  intros [Hb Hf] H. unfold fire_reset in H.
  destruct (earliest_reset (resets d)) as [k|] eqn:He; [|discriminate].
  destruct (earliest_reset_spec _ _ He) as (t & Ht & Hmin). rewrite Ht in H. injection H as <-.
  constructor; simpl; [|now apply Forall_delete].
  intros j b bt Hj Hbt.
  destruct (set_button_lookup_inv _ _ _ _ _ _ Hj Hbt) as [(<- & b0 & bt0 & Hb0 & Hbt0 & ->)|(Hne & Hj')].
  - destruct (Hb _ _ _ Hb0 Hbt0) as (_ & _ & Hc).
    destruct (r_kind t) eqn:Hkind; simpl; (split; [unfold known_label; tauto|]);
      (split; [congruence|]); [discriminate|].
    intros Hn. destruct (Hc Hn) as (r & Hr & Hrb & Hrk). exists r.
    split; [|tauto]. apply (elem_of_delete_other _ _ t); [exact Hr | exact Ht | congruence].
  - destruct (Hb _ _ _ Hj' Hbt) as (Hk & Hl & Hc). split; [exact Hk|].
    split; [intros Hn; destruct (Hl Hn) as (r & Hr & Hrb) | intros Hn; destruct (Hc Hn) as (r & Hr & Hrb & ?)];
      exists r; (split; [apply (elem_of_delete_other _ _ t); [exact Hr | exact Ht | congruence]|]); tauto.
Qed.

Lemma inv_doc_step ev d d' : inv d -> step_fn ev d = Some d' -> inv d'.
Proof.
  intros Hi H. destruct ev as [dt i|dt k ok|]; simpl in H.
  - destruct (advance dt d) as [d1|] eqn:Ha; [|discriminate]. simpl in H.
    exact (inv_click _ _ _ (inv_advance _ _ _ Hi Ha) H).
  - destruct (advance dt d) as [d1|] eqn:Ha; [|discriminate]. simpl in H.
    exact (inv_settle_write _ _ _ _ (inv_advance _ _ _ Hi Ha) H).
  - exact (inv_fire _ _ Hi H).
Qed.

Lemma reachable_doc_inv d : reachable d -> inv d.
Proof. induction 1; [now apply inv_load | eapply inv_doc_step; eauto]. Qed.

(** ** Helpers for the properties *)

(** With no reset timer pending, a button of ours reads "Copy" and has
    no class [copied]. *)
Lemma inv_quiet d i b bt :
  inv d -> resets d = [] -> blocks d !! i = Some b -> button b = Some bt ->
  bt = mkButton label_copy false.
Proof.
  intros [Hb _] Hr Hi Hbt. destruct (Hb _ _ _ Hi Hbt) as (_ & Hl & Hc). rewrite Hr in Hl, Hc.
  destruct bt as [l c]; simpl in *. f_equal.
  - destruct (List.list_eq_dec ascii_dec l label_copy) as [|Hn]; [assumption|].
    destruct (Hl Hn) as (r & Hin & _). now apply not_elem_of_nil in Hin.
  - destruct c; [|reflexivity]. destruct (Hc eq_refl) as (r & Hin & _). now apply not_elem_of_nil in Hin.
Qed.

Lemma advance_zero d : inv d -> advance 0 d = Some d.
Proof.
  intros [_ Hf]. unfold advance, none_overdue. rewrite Nat.add_0_r.
  replace (forallb _ _) with true; [now destruct d|]. symmetry. apply forallb_forall.
  intros r Hr. apply Nat.leb_le. apply list_elem_of_In in Hr. exact (proj1 (Forall_forall _ _) Hf r Hr).
Qed.

(** A reachable page with a reset pending fires its earliest one. *)
Lemma fire_progress d :
  reachable d -> resets d <> [] ->
  exists d', step_fn EvReset d = Some d' /\ length (resets d') = pred (length (resets d)).
Proof.
  intros _ Hne. simpl. unfold fire_reset. destruct (earliest_reset_some _ Hne) as (k & Hk). rewrite Hk.
  destruct (earliest_reset_spec _ _ Hk) as (t & Ht & _). rewrite Ht. eexists. split; [reflexivity|].
  simpl. rewrite length_delete by (rewrite Ht; eauto). lia.
Qed.

Lemma drain_resets n d :
  reachable d -> length (resets d) = n ->
  exists d', run (repeat EvReset n) d = Some d' /\ reachable d' /\ resets d' = [].
Proof.
  revert d. induction n as [|n IH]; intros d Hr Hn.
  - exists d. split_ands; [reflexivity | exact Hr | now apply length_zero_iff_nil].
  - destruct (fire_progress d Hr) as (d1 & Hs & Hl); [intros Hz; rewrite Hz in Hn; discriminate|].
    destruct (IH d1 (reach_step _ _ _ Hr Hs) ltac:(lia)) as (d' & Hrun & Hr' & He).
    exists d'. cbn [repeat run]. rewrite Hs. simpl. eauto.
Qed.

Lemma reachable_run evs d d' : reachable d -> run evs d = Some d' -> reachable d'.
Proof.
  revert d. induction evs as [|ev evs IH]; intros d Hr H; simpl in H; [congruence|].
  destruct (step_fn ev d) as [d1|] eqn:Hs; [|discriminate]. exact (IH d1 (reach_step _ _ _ Hr Hs) H).
Qed.

(** ** A page with two code blocks

    The first block has a [code] element holding [ls -la]; the second
    has no [code] element and already holds a [.copy-button]. *)
Definition demo_doc : Doc :=
  mkDoc [mkBlock (Some (js "ls -la")) false None false; mkBlock None true None false] [] [] [] 0 0.

Definition loaded : Doc := addCopyButtons demo_doc.

Lemma loaded_reachable : reachable loaded.
Proof. apply reach_load. split_ands; repeat constructor. Qed.

(** The page after one successful copy from the first block. *)
Definition after_copy : Doc :=
  match run [EvClick 0 0; EvSettle 0 0 true] loaded with Some d => d | None => loaded end.

(** Two copies from the first block, 1500 time units apart: the button
    reads "Copied!" with resets pending at 2000 and 3500. *)
Definition copied_twice : Doc :=
  match run [EvClick 0 0; EvSettle 0 0 true; EvClick 1500 0; EvSettle 0 0 true] loaded with
  | Some d => d | None => loaded end.

(** The reset of the first copy fires, at 2000. *)
Definition first_reset : Doc :=
  match fire_reset copied_twice with Some d => d | None => copied_twice end.

(** ** Properties *)

(** C17: running [addCopyButtons] a second time changes nothing, and
    after one run every block holds a copy button: the blocks that had
    none got a "Copy" button without the class [copied] and were made
    [position: relative], the others are untouched. *)
Theorem addCopyButtons_idem_spec d :
  addCopyButtons (addCopyButtons d) = addCopyButtons d /\
  forall i b, blocks d !! i = Some b ->
    exists b', blocks (addCopyButtons d) !! i = Some b' /\ has_copy_button b' = true /\
      (if has_copy_button b then b' = b
       else button b' = Some (mkButton label_copy false) /\ positioned b' = true /\
            code_text b' = code_text b).
Proof.
  split.
  - unfold addCopyButtons; simpl. rewrite map_map. f_equal. apply map_ext, add_button_idem.
  - intros i b Hi. exists (add_button b). simpl. rewrite list_lookup_fmap, Hi.
    split_ands; [reflexivity | apply has_copy_button_add|].
    unfold add_button. destruct (has_copy_button b); auto.
Qed.

(** C7: on every reachable page, a button of ours that does not read
    "Copy", or that has the class [copied], has a reset timer pending
    for its block (of the success kind for [copied]); so once no reset
    is pending every button reads "Copy" without [copied]. *)
Theorem reachable_label_reset d i b bt :
  reachable d -> blocks d !! i = Some b -> button b = Some bt ->
  (label bt <> label_copy -> exists r, r ∈ resets d /\ r_block r = i) /\
  (copied bt = true -> exists r, r ∈ resets d /\ r_block r = i /\ r_kind r = AfterCopy) /\
  (resets d = [] -> bt = mkButton label_copy false).
Proof.
  intros Hr Hi Hbt. pose proof (reachable_doc_inv _ Hr) as Hinv.
  destruct (inv_buttons _ Hinv _ _ _ Hi Hbt) as (_ & Hl & Hc).
  split_ands; [exact Hl | exact Hc | intros He; exact (inv_quiet _ _ _ _ Hinv He Hi Hbt)].
Qed.

(** C15: from a reachable page, firing the pending reset timers one by
    one, earliest first, always succeeds and leaves every button reading
    "Copy" without the class [copied]: no label stays "Copied!" or
    "Failed" for ever. *)
Theorem reachable_resets_drain d :
  reachable d ->
  exists d', run (repeat EvReset (length (resets d))) d = Some d' /\ resets d' = [] /\
    forall i b bt, blocks d' !! i = Some b -> button b = Some bt -> bt = mkButton label_copy false.
Proof.
  intros Hr. destruct (drain_resets _ d Hr eq_refl) as (d' & Hrun & Hr' & He).
  exists d'. split_ands; [exact Hrun | exact He|].
  intros i b bt Hi Hbt. exact (inv_quiet _ _ _ _ (reachable_doc_inv _ Hr') He Hi Hbt).
Qed.

(** C16: a click on the button of a block, followed by the settlement
    of the [writeText] promise it started: on success the block's code
    text is appended to the clipboard and the button reads "Copied!"
    with the class [copied]; on failure the clipboard is unchanged, one
    error is logged and the button reads "Failed", its class unchanged.
    Either way a reset timer for the block is due [reset_delay] later. *)
Theorem click_then_settle d i b bt ok :
  reachable d -> blocks d !! i = Some b -> button b = Some bt ->
  exists d', run [EvClick 0 i; EvSettle 0 (length (writes d)) ok] d = Some d' /\
    clipboard d' = clipboard d ++ (if ok then [copy_text b] else []) /\
    errors d' = (if ok then errors d else S (errors d)) /\
    writes d' = writes d /\
    resets d' = resets d ++ [mkReset (clock d + reset_delay) i (if ok then AfterCopy else AfterFail)] /\
    exists b', blocks d' !! i = Some b' /\ code_text b' = code_text b /\
      button b' = Some (if ok then mkButton label_copied true else mkButton label_failed (copied bt)).
Proof.
  intros Hr Hi Hbt. pose proof (reachable_doc_inv _ Hr) as Hinv.
  simpl. rewrite (advance_zero _ Hinv). simpl. unfold click. rewrite Hi, Hbt. simpl.
  rewrite (advance_zero (mkDoc _ _ _ _ _ _)) by (destruct Hinv; now constructor). simpl.
  unfold settle_write; simpl. rewrite lookup_app_r, Nat.sub_diag by lia. simpl.
  rewrite delete_middle, app_nil_r.
  destruct ok; eexists; (split; [reflexivity|]); simpl; rewrite ?app_nil_r; split_ands; try reflexivity;
    eexists; erewrite set_button_same by eauto; eauto.
Qed.

(** C24: reset timers are never cancelled.  A click or a settlement
    keeps every pending reset (it only appends), and firing the earliest
    reset puts its block's label back to "Copy", and removes [copied]
    after a success, whatever other resets for the block are still
    pending.  So after a second copy within 2000 units of the first,
    "Copied!" shows only until the first copy's timer fires. *)
Theorem copy_reset_stale ev d d' :
  step_fn ev d = Some d' ->
  (ev <> EvReset -> exists extra, resets d' = resets d ++ extra) /\
  (ev = EvReset -> exists k t, resets d !! k = Some t /\ resets d' = delete k (resets d) /\
     forall b bt, blocks d !! r_block t = Some b -> button b = Some bt ->
       blocks d' !! r_block t = Some (mkBlock (code_text b) (preexisting b)
         (Some (mkButton label_copy (match r_kind t with AfterCopy => false | AfterFail => copied bt end)))
         (positioned b))).
Proof.
  intros Hs. destruct ev as [dt i|dt k ok|]; simpl in Hs; split; intros Hev; try (exfalso; congruence).
  - destruct (advance dt d) as [d1|] eqn:Ha; [|discriminate]. simpl in Hs. unfold advance in Ha.
    destruct (none_overdue _ _); [|discriminate]. injection Ha as <-. unfold click in Hs. simpl in Hs.
    destruct (blocks d !! i); [destruct (button _)|]; try discriminate. injection Hs as <-.
    exists []. now rewrite app_nil_r.
  - destruct (advance dt d) as [d1|] eqn:Ha; [|discriminate]. simpl in Hs. unfold advance in Ha.
    destruct (none_overdue _ _); [|discriminate]. injection Ha as <-. unfold settle_write in Hs. simpl in Hs.
    destruct (writes d !! k); [|discriminate]. destruct ok; injection Hs as <-; eexists; reflexivity.
  - unfold fire_reset in Hs. destruct (earliest_reset (resets d)) as [k|]; [|discriminate].
    destruct (resets d !! k) as [t|] eqn:Ht; [|discriminate]. injection Hs as <-.
    exists k, t. split_ands; [exact Ht | reflexivity|]. intros b bt Hb Hbt. simpl.
    rewrite (set_button_same _ _ _ _ _ Hb Hbt). now destruct (r_kind t).
Qed.

(** ** Witnesses *)

Lemma reachable_label_reset_witness :
  (label_copied <> label_copy -> exists r, r ∈ resets after_copy /\ r_block r = 0) /\
  (true = true -> exists r, r ∈ resets after_copy /\ r_block r = 0 /\ r_kind r = AfterCopy) /\
  (resets after_copy = [] -> mkButton label_copied true = mkButton label_copy false).
Proof.
  apply (reachable_label_reset after_copy 0
           (mkBlock (Some (js "ls -la")) false (Some (mkButton label_copied true)) true)
           (mkButton label_copied true)).
  - apply (reachable_run [EvClick 0 0; EvSettle 0 0 true] loaded); [exact loaded_reachable|].
    vm_compute. reflexivity.
  - vm_compute. reflexivity.
  - reflexivity.
Defined.

Lemma reachable_resets_drain_witness :
  exists d', run (repeat EvReset (length (resets after_copy))) after_copy = Some d' /\ resets d' = [] /\
    forall i b bt, blocks d' !! i = Some b -> button b = Some bt -> bt = mkButton label_copy false.
Proof.
  apply reachable_resets_drain.
  apply (reachable_run [EvClick 0 0; EvSettle 0 0 true] loaded); [exact loaded_reachable|].
  vm_compute. reflexivity.
Defined.

Lemma click_then_settle_witness :
  exists d', run [EvClick 0 0; EvSettle 0 (length (writes loaded)) false] loaded = Some d' /\
    clipboard d' = clipboard loaded ++ [] /\ errors d' = S (errors loaded) /\
    writes d' = writes loaded /\
    resets d' = resets loaded ++ [mkReset (clock loaded + reset_delay) 0 AfterFail] /\
    exists b', blocks d' !! 0 = Some b' /\ code_text b' = Some (js "ls -la") /\
      button b' = Some (mkButton label_failed false).
Proof.
  apply (click_then_settle loaded 0
           (mkBlock (Some (js "ls -la")) false (Some (mkButton label_copy false)) true)
           (mkButton label_copy false) false).
  - exact loaded_reachable.
  - vm_compute. reflexivity.
  - reflexivity.
Defined.

(** The reset due at 2000 fires while the one due at 3500, of the second
    copy, is pending: the button reads "Copy" 500 units after "Copied!". *)
Lemma copy_reset_stale_witness :
  (EvReset <> EvReset -> exists extra, resets first_reset = resets copied_twice ++ extra) /\
  (EvReset = EvReset -> exists k t, resets copied_twice !! k = Some t /\
     resets first_reset = delete k (resets copied_twice) /\
     forall b bt, blocks copied_twice !! r_block t = Some b -> button b = Some bt ->
       blocks first_reset !! r_block t = Some (mkBlock (code_text b) (preexisting b)
         (Some (mkButton label_copy (match r_kind t with AfterCopy => false | AfterFail => copied bt end)))
         (positioned b))).
Proof. apply copy_reset_stale. vm_compute. reflexivity. Defined.

End CodeCopy.
